(** * netzob.Common.Models.Vocabulary.AbstractField

    A shallow embedding of the field-tree node of Netzob
    ([src/netzob/Common/Models/Vocabulary/AbstractField.py]) and the
    properties of its structural operations.

    Python objects live in a store indexed by object identity; every method
    of [AbstractField] is a computation in a state-and-exception monad over
    that store.  A computation that has no behaviour in the model (a method
    called on an identity that names no object, or a recursion that runs out
    of fuel) yields [None]. *)

From stdpp Require Import gmap strings list fin_maps.

(** ** Values *)

(** Object identity of an [AbstractField] instance. *)
Definition ref := nat.

(** The four [TypedList] attributes a node owns.  A node creates each list
    once in [__init__] and never rebinds the attribute, so a list object is
    identified by its owner and the attribute that holds it. *)
Inductive slot :=
  | Children
  | EncodingFunctions
  | VisualizationFunctions
  | TransformationFunctions.

Global Instance slot_eq_dec : EqDecision slot.
Proof. solve_decision. Defined.

(** Python values that reach the methods of the class. *)
#[local] Set Warnings "-register-all".
Inductive pyval :=
  | VNone
  | VBool (b : bool)
  | VInt (z : Z)
  | VStr (s : string)
  | VUUID (u : N)                         (* uuid.UUID *)
  | VNetzobRegex (r : string)             (* NetzobRegex *)
  | VObj (r : ref)                        (* an AbstractField instance *)
  | VEncodingFunction (f : nat)
  | VVisualizationFunction (f : nat)
  | VTransformationFunction (f : nat)
  | VTypedList (owner : ref) (s : slot)   (* the live list held by a node *)
  | VList (l : list pyval).               (* a plain list *)

(** Classes named by the decorators and by the typed lists of the file. *)
Inductive pytype :=
  | TUUID
  | Tstr
  | Tbool
  | TNetzobRegex
  | TAbstractField
  | TEncodingFunction
  | TVisualizationFunction
  | TTransformationFunction
  | SELF.

(** The exceptions of the file, and the built-in ones its methods raise. *)
Inductive exn :=
  | InvalidVariableException
  | AlignmentException
  | NoSymbolException
  | TypeError
  | ValueError
  | AttributeError
  | IndexError.

Global Instance exn_eq_dec : EqDecision exn.
Proof. solve_decision. Defined.

(** Concrete classes of nodes.  [AbstractField] is abstract ([generate] is an
    abstract method), so every object is an instance of a subclass. *)
Inductive variant := Symbol | Field | Layer.

Global Instance variant_eq_dec : EqDecision variant.
Proof. solve_decision. Defined.

Definition is_None (v : pyval) : bool :=
  match v with VNone => true | _ => false end.

Definition isinstance (v : pyval) (t : pytype) : bool :=
  match t, v with
  | TUUID, VUUID _ => true
  | Tstr, VStr _ => true
  | Tbool, VBool _ => true
  | TNetzobRegex, VNetzobRegex _ => true
  | TAbstractField, VObj _ => true
  | TEncodingFunction, VEncodingFunction _ => true
  | TVisualizationFunction, VVisualizationFunction _ => true
  | TTransformationFunction, VTransformationFunction _ => true
  | SELF, VObj _ => true
  | _, _ => false
  end.

(** ** TypedList *)

(** Modelled from the spec: [netzob.Common.Utils.TypedList] is not among the
    sources.  A typed list is a sequence created for one class of members;
    an element enters through a check against that class (the property
    docstrings: "raises TypeError"), [extend] appends the elements of its
    argument one after the other in order, [pop] removes the last element.
    [check t v] is the membership test of a list created as
    [TypedList(t)]. *)
Definition TypedList := list pyval.

Module TL.
Definition check (t : pytype) (v : pyval) : bool := isinstance v t.

Definition len (l : TypedList) : nat := length l.

Definition pop (l : TypedList) : exn + pyval * TypedList :=
  match last l with
  | None => inl IndexError
  | Some v => inr (v, removelast l)
  end.

Definition append (t : pytype) (l : TypedList) (v : pyval) : exn + TypedList :=
  if check t v then inr (l ++ [v]) else inl TypeError.
End TL.

(** The class each list of a node is created for in [__init__]:
    [TypedList(AbstractField)], [TypedList(EncodingFunction)],
    [TypedList(VisualizationFunction)], [TypedList(TransformationFunction)]. *)
Definition membersTypes (s : slot) : pytype :=
  match s with
  | Children => TAbstractField
  | EncodingFunctions => TEncodingFunction
  | VisualizationFunctions => TVisualizationFunction
  | TransformationFunctions => TTransformationFunction
  end.

(** ** Nodes and the store *)

(** The attributes [__init__] creates (the logger is left out). *)
Record node := mkNode {
  __class__ : variant;
  __id : pyval;
  __name : pyval;
  __regex : pyval;
  __layer : pyval;
  __description : pyval;
  __children : TypedList;
  __parent : pyval;
  __encodingFunctions : TypedList;
  __visualizationFunctions : TypedList;
  __transformationFunctions : TypedList;
  _variable : pyval
}.

Abbreviation heap := (gmap ref node).

Definition with_id (v : pyval) (n : node) : node :=
  mkNode (__class__ n) v (__name n) (__regex n) (__layer n) (__description n)
         (__children n) (__parent n) (__encodingFunctions n)
         (__visualizationFunctions n) (__transformationFunctions n) (_variable n).

Definition with_name (v : pyval) (n : node) : node :=
  mkNode (__class__ n) (__id n) v (__regex n) (__layer n) (__description n)
         (__children n) (__parent n) (__encodingFunctions n)
         (__visualizationFunctions n) (__transformationFunctions n) (_variable n).

Definition with_regex (v : pyval) (n : node) : node :=
  mkNode (__class__ n) (__id n) (__name n) v (__layer n) (__description n)
         (__children n) (__parent n) (__encodingFunctions n)
         (__visualizationFunctions n) (__transformationFunctions n) (_variable n).

Definition with_layer (v : pyval) (n : node) : node :=
  mkNode (__class__ n) (__id n) (__name n) (__regex n) v (__description n)
         (__children n) (__parent n) (__encodingFunctions n)
         (__visualizationFunctions n) (__transformationFunctions n) (_variable n).

Definition with_description (v : pyval) (n : node) : node :=
  mkNode (__class__ n) (__id n) (__name n) (__regex n) (__layer n) v
         (__children n) (__parent n) (__encodingFunctions n)
         (__visualizationFunctions n) (__transformationFunctions n) (_variable n).

Definition with_parent (v : pyval) (n : node) : node :=
  mkNode (__class__ n) (__id n) (__name n) (__regex n) (__layer n) (__description n)
         (__children n) v (__encodingFunctions n)
         (__visualizationFunctions n) (__transformationFunctions n) (_variable n).

(** The list object a node holds in a slot, and its in-place replacement. *)
Definition slot_get (s : slot) (n : node) : TypedList :=
  match s with
  | Children => __children n
  | EncodingFunctions => __encodingFunctions n
  | VisualizationFunctions => __visualizationFunctions n
  | TransformationFunctions => __transformationFunctions n
  end.

Definition slot_set (s : slot) (t : TypedList) (n : node) : node :=
  match s with
  | Children =>
      mkNode (__class__ n) (__id n) (__name n) (__regex n) (__layer n) (__description n)
             t (__parent n) (__encodingFunctions n)
             (__visualizationFunctions n) (__transformationFunctions n) (_variable n)
  | EncodingFunctions =>
      mkNode (__class__ n) (__id n) (__name n) (__regex n) (__layer n) (__description n)
             (__children n) (__parent n) t
             (__visualizationFunctions n) (__transformationFunctions n) (_variable n)
  | VisualizationFunctions =>
      mkNode (__class__ n) (__id n) (__name n) (__regex n) (__layer n) (__description n)
             (__children n) (__parent n) (__encodingFunctions n)
             t (__transformationFunctions n) (_variable n)
  | TransformationFunctions =>
      mkNode (__class__ n) (__id n) (__name n) (__regex n) (__layer n) (__description n)
             (__children n) (__parent n) (__encodingFunctions n)
             (__visualizationFunctions n) t (_variable n)
  end.

(** ** The monad of method calls *)

Inductive result (A : Type) :=
  | Val (a : A)
  | Exc (e : exn).
Arguments Val {A} a.
Arguments Exc {A} e.

Definition M (A : Type) : Type := heap → option (result A * heap).

Definition ret {A} (a : A) : M A := λ h, Some (Val a, h).
Definition raise {A} (e : exn) : M A := λ h, Some (Exc e, h).
Definition bind {A B} (m : M A) (k : A → M B) : M B :=
  λ h, match m h with
       | None => None
       | Some (Val a, h') => k a h'
       | Some (Exc e, h') => Some (Exc e, h')
       end.

Global Instance M_ret : MRet M := @ret.
Global Instance M_bind : MBind M := λ A B k m, bind m k.

(** Attribute read and attribute assignment on the object [self]. *)
Definition load {A} (self : ref) (f : node → A) : M A :=
  λ h, match h !! self with
       | Some n => Some (Val (f n), h)
       | None => None
       end.

Definition store (self : ref) (f : node → node) : M unit :=
  λ h, match h !! self with
       | Some n => Some (Val tt, <[self := f n]> h)
       | None => None
       end.

(** ** Decorators *)

(** Modelled from the spec: the decorator [typeCheck] of
    [netzob.Common.Utils.Decorators] is not among the sources.  It guards a
    setter: an absent value ([None]) and an instance of the named class pass
    and the body of the setter runs; any other value fails with [TypeError]
    before the body runs (section 4.1: [isLayer] set to an unset value does not
    fail, [parent] accepts either a field node or absent; section 7: a value
    of the wrong type is rejected with no partial assignment).  With the
    marker [SELF] the class is that of field nodes. *)
Definition typeCheck (t : pytype) (v : pyval) : M unit :=
  if is_None v || isinstance v t then ret tt else raise TypeError.

(** ** Operations on the list objects held in the store *)

Definition tl_len (o : ref) (s : slot) : M nat :=
  load o (λ n, TL.len (slot_get s n)).

Definition tl_pop (o : ref) (s : slot) : M pyval :=
  t ← load o (slot_get s);
  match TL.pop t with
  | inl e => raise e
  | inr (v, t') => store o (slot_set s t');; ret v
  end.

Definition tl_append (o : ref) (s : slot) (v : pyval) : M unit :=
  t ← load o (slot_get s);
  match TL.append (membersTypes s) t v with
  | inl e => raise e
  | inr t' => store o (slot_set s t')
  end.

Fixpoint tl_extend (o : ref) (s : slot) (values : list pyval) : M unit :=
  match values with
  | [] => ret tt
  | v :: values' => tl_append o s v;; tl_extend o s values'
  end.

(** The elements a [for] loop draws from a value. *)
Definition iterate (v : pyval) : M (list pyval) :=
  match v with
  | VList l => ret l
  | VTypedList o s => load o (slot_get s)
  | VStr str => ret ((λ c, VStr (String c EmptyString)) <$> String.list_ascii_of_string str)
  | _ => raise TypeError
  end.

(** [l.extend(values)] on a value [l]. *)
Definition extend (l : pyval) (values : pyval) : M unit :=
  match l with
  | VTypedList o s => vs ← iterate values; tl_extend o s vs
  | _ => raise AttributeError
  end.

(** [while len(l) > 0: l.pop()].  Each turn of the loop consumes one unit of
    fuel. *)
Fixpoint clear_loop (fuel : nat) (o : ref) (s : slot) : M unit :=
  match fuel with
  | 0 => λ _, None
  | S k =>
      len ← tl_len o s;
      if bool_decide (0 < len) then tl_pop o s;; clear_loop k o s else ret tt
  end.

Definition clear (o : ref) (s : slot) : M unit :=
  len ← tl_len o s; clear_loop (S len) o s.

(** ** The methods of [AbstractField] *)

(** [__init__]: [self] is the identity of the new object and [uuid4] the
    value drawn by [uuid.uuid4()]. *)
Definition __init__ (self : ref) (cls : variant) (uuid4 : N)
    (name regex layer : pyval) : M unit :=
  λ h, match h !! self with
       | Some _ => None
       | None =>
           Some (Val tt,
                 <[self := mkNode cls (VUUID uuid4) name regex layer (VStr "")
                                  [] VNone [] [] [] VNone]> h)
       end.

Definition getCells (self : ref) (encoded styled transposed : pyval) : M pyval :=
  ret (VList [VList []]).

Definition getValues (self : ref) (encoded styled : pyval) : M pyval :=
  ret (VList []).

Definition generate (self : ref) (mutator : pyval) : M pyval :=
  ret VNone.

Definition hasParent (self : ref) : M bool :=
  p ← load self __parent; ret (negb (is_None p)).

Definition get_parent (self : ref) : M pyval := load self __parent.

Fixpoint getSymbol (fuel : nat) (self : ref) : M pyval :=
  match fuel with
  | 0 => λ _, None
  | S k =>
      c ← load self __class__;
      if bool_decide (c = Symbol) then ret (VObj self)
      else
        b ← hasParent self;
        if b : bool then
          p ← get_parent self;
          match p with
          | VObj r => getSymbol k r
          | _ => raise AttributeError
          end
        else raise NoSymbolException
  end.

Definition clearChildren (self : ref) : M unit := clear self Children.
Definition clearEncodingFunctions (self : ref) : M unit :=
  clear self EncodingFunctions.
Definition clearVisualizationFunctions (self : ref) : M unit :=
  clear self VisualizationFunctions.
Definition clearTransformationFunctions (self : ref) : M unit :=
  clear self TransformationFunctions.

(** *** Properties *)

Definition get_id (self : ref) : M pyval := load self __id.

Definition set_id (self : ref) (id : pyval) : M unit :=
  typeCheck TUUID id;;
  if is_None id then raise ValueError else store self (with_id id).

Definition get_name (self : ref) : M pyval := load self __name.

Definition set_name (self : ref) (name : pyval) : M unit :=
  typeCheck Tstr name;; store self (with_name name).

Definition get_regex (self : ref) : M pyval := load self __regex.

Definition set_regex (self : ref) (regex : pyval) : M unit :=
  typeCheck TNetzobRegex regex;; store self (with_regex regex).

Definition get_layer (self : ref) : M pyval := load self __layer.

Definition set_layer (self : ref) (layer : pyval) : M unit :=
  typeCheck Tbool layer;;
  let layer := if is_None layer then VBool false else layer in
  store self (with_layer layer).

Definition get_description (self : ref) : M pyval := load self __description.

Definition set_description (self : ref) (description : pyval) : M unit :=
  typeCheck Tstr description;; store self (with_description description).

Definition get_encodingFunctions (self : ref) : M pyval :=
  load self (λ _, VTypedList self EncodingFunctions).

Definition set_encodingFunctions (self : ref) (encodingFunctions : pyval) : M unit :=
  clearEncodingFunctions self;;
  l ← get_encodingFunctions self; extend l encodingFunctions.

Definition get_visualizationFunctions (self : ref) : M pyval :=
  load self (λ _, VTypedList self VisualizationFunctions).

Definition set_visualizationFunctions (self : ref) (visualizationFunctions : pyval) : M unit :=
  clearVisualizationFunctions self;;
  l ← get_visualizationFunctions self; extend l visualizationFunctions.

Definition get_transformationFunctions (self : ref) : M pyval :=
  load self (λ _, VTypedList self TransformationFunctions).

Definition set_transformationFunctions (self : ref) (transformationFunctions : pyval) : M unit :=
  clearTransformationFunctions self;;
  l ← get_transformationFunctions self; extend l transformationFunctions.

Definition get_children (self : ref) : M pyval :=
  load self (λ _, VTypedList self Children).

Definition set_children (self : ref) (children : pyval) : M unit :=
  clearChildren self;;
  l ← get_children self; extend l children.

Definition set_parent (self : ref) (parent : pyval) : M unit :=
  typeCheck SELF parent;; store self (with_parent parent).

Definition storeInMemento (self : ref) : M pyval := ret VNone.

Definition restoreFromMemento (self : ref) (memento : pyval) : M pyval := ret VNone.

(** Reading a list value back: the elements it holds in the current store. *)
Definition contents (l : pyval) (h : heap) : option (list pyval) :=
  match l with
  | VTypedList o s => slot_get s <$> h !! o
  | VList vs => Some vs
  | _ => None
  end.

(** ** Method calls as transitions of the store *)

Definition void (m : M unit) : M pyval := m;; ret VNone.

(** A call of a method of the class, or a mutation of a live list handed out
    by one of the list getters. *)
Inductive call :=
  | Call_init (self : ref) (cls : variant) (uuid4 : N) (name regex layer : pyval)
  | Call_getCells (self : ref) (encoded styled transposed : pyval)
  | Call_getValues (self : ref) (encoded styled : pyval)
  | Call_generate (self : ref) (mutator : pyval)
  | Call_getSymbol (fuel : nat) (self : ref)
  | Call_hasParent (self : ref)
  | Call_clear (self : ref) (s : slot)
  | Call_get_id (self : ref)
  | Call_set_id (self : ref) (v : pyval)
  | Call_get_name (self : ref)
  | Call_set_name (self : ref) (v : pyval)
  | Call_get_regex (self : ref)
  | Call_set_regex (self : ref) (v : pyval)
  | Call_get_layer (self : ref)
  | Call_set_layer (self : ref) (v : pyval)
  | Call_get_description (self : ref)
  | Call_set_description (self : ref) (v : pyval)
  | Call_get_list (self : ref) (s : slot)
  | Call_set_list (self : ref) (s : slot) (v : pyval)
  | Call_get_parent (self : ref)
  | Call_set_parent (self : ref) (v : pyval)
  | Call_storeInMemento (self : ref)
  | Call_restoreFromMemento (self : ref) (memento : pyval)
  | Call_extend (l values : pyval)
  | Call_pop (owner : ref) (s : slot).

Definition exec (c : call) : M pyval :=
  match c with
  | Call_init self cls u name regex layer => void (__init__ self cls u name regex layer)
  | Call_getCells self e s t => getCells self e s t
  | Call_getValues self e s => getValues self e s
  | Call_generate self m => generate self m
  | Call_getSymbol fuel self => getSymbol fuel self
  | Call_hasParent self => b ← hasParent self; ret (VBool b)
  | Call_clear self Children => void (clearChildren self)
  | Call_clear self EncodingFunctions => void (clearEncodingFunctions self)
  | Call_clear self VisualizationFunctions => void (clearVisualizationFunctions self)
  | Call_clear self TransformationFunctions => void (clearTransformationFunctions self)
  | Call_get_id self => get_id self
  | Call_set_id self v => void (set_id self v)
  | Call_get_name self => get_name self
  | Call_set_name self v => void (set_name self v)
  | Call_get_regex self => get_regex self
  | Call_set_regex self v => void (set_regex self v)
  | Call_get_layer self => get_layer self
  | Call_set_layer self v => void (set_layer self v)
  | Call_get_description self => get_description self
  | Call_set_description self v => void (set_description self v)
  | Call_get_list self Children => get_children self
  | Call_get_list self EncodingFunctions => get_encodingFunctions self
  | Call_get_list self VisualizationFunctions => get_visualizationFunctions self
  | Call_get_list self TransformationFunctions => get_transformationFunctions self
  | Call_set_list self Children v => void (set_children self v)
  | Call_set_list self EncodingFunctions v => void (set_encodingFunctions self v)
  | Call_set_list self VisualizationFunctions v => void (set_visualizationFunctions self v)
  | Call_set_list self TransformationFunctions v => void (set_transformationFunctions self v)
  | Call_get_parent self => get_parent self
  | Call_set_parent self v => void (set_parent self v)
  | Call_storeInMemento self => storeInMemento self
  | Call_restoreFromMemento self m => restoreFromMemento self m
  | Call_extend l values => void (extend l values)
  | Call_pop o s => tl_pop o s
  end.

(** The stores a program can build: it starts with no object and proceeds by
    calls, whether they return or raise. *)
Inductive reachable : heap → Prop :=
  | reachable_empty : reachable ∅
  | reachable_call h c r h' :
      reachable h → exec c h = Some (r, h') → reachable h'.

(** ** The parent relation *)

Definition parent_of (h : heap) (r : ref) : option pyval := __parent <$> h !! r.

Definition children_of (h : heap) (r : ref) : option (list pyval) :=
  __children <$> h !! r.

(** [chain h r l]: [l] lists the nodes met from [r] by following [parent]
    up to a node without parent, the root. *)
Inductive chain (h : heap) : ref → list ref → Prop :=
  | chain_root r :
      parent_of h r = Some VNone → chain h r [r]
  | chain_step r p l :
      parent_of h r = Some (VObj p) → chain h p l → chain h r (r :: l).

(** [on_chain h a r]: [a] is [r] or one of its ancestors. *)
Inductive on_chain (h : heap) (a : ref) : ref → Prop :=
  | on_chain_here : on_chain h a a
  | on_chain_up r p :
      parent_of h r = Some (VObj p) → on_chain h a p → on_chain h a r.

(** The parent chain of [r] is finite, hence free of cycles. *)
Definition finite_chain (h : heap) (r : ref) : Prop := ∃ l, chain h r l.

Definition acyclic (h : heap) : Prop := ∀ r, is_Some (h !! r) → finite_chain h r.

Definition is_Symbol (h : heap) (r : ref) : bool :=
  bool_decide (__class__ <$> h !! r = Some Symbol).


(** ** Vocabulary of the specification *)

(** The error kind [ValidationError] of section 7 of the specification: an
    invalid value assigned to a typed property ([TypeError]) or a mandatory
    one left absent ([ValueError]). *)
Definition ValidationError (e : exn) : Prop := e = TypeError ∨ e = ValueError.

(** [n'] differs from [n] at most in the list held in slot [s]. *)
Definition same_but (s : slot) (n n' : node) : Prop :=
  slot_set s (slot_get s n) n' = n.

(** The three pipelines and their operations. *)
Inductive pipeline := encoding | visualization | transformation.

Definition pipeline_slot (p : pipeline) : slot :=
  match p with
  | encoding => EncodingFunctions
  | visualization => VisualizationFunctions
  | transformation => TransformationFunctions
  end.

Definition set_pipeline (p : pipeline) : ref → pyval → M unit :=
  match p with
  | encoding => set_encodingFunctions
  | visualization => set_visualizationFunctions
  | transformation => set_transformationFunctions
  end.

Definition clear_pipeline (p : pipeline) : ref → M unit :=
  match p with
  | encoding => clearEncodingFunctions
  | visualization => clearVisualizationFunctions
  | transformation => clearTransformationFunctions
  end.

(** ** Example stores *)

Definition run {A} (m : M A) (h : heap) : heap :=
  match m h with
  | Some (_, h') => h'
  | None => h
  end.

(** Three unrelated nodes: a symbol and two fields. *)
Definition three_nodes : heap :=
  run (__init__ 1 Symbol 101 (VStr "S") VNone (VBool false);;
       __init__ 2 Field 102 (VStr "F1") VNone (VBool false);;
       __init__ 3 Field 103 (VStr "F2") VNone (VBool false)) ∅.

(** A symbol 1 above a line of five fields 2 .. 6, linked in both
    directions, with two encoding functions on node 6. *)
Definition deep_tree : heap :=
  run (__init__ 1 Symbol 201 (VStr "S") VNone (VBool false);;
       __init__ 2 Field 202 (VStr "a") VNone (VBool true);;
       __init__ 3 Field 203 (VStr "b") VNone (VBool true);;
       __init__ 4 Field 204 (VStr "c") VNone (VBool true);;
       __init__ 5 Field 205 (VStr "d") VNone (VBool true);;
       __init__ 6 Field 206 (VStr "e") VNone (VBool false);;
       set_children 1 (VList [VObj 2]);; set_parent 2 (VObj 1);;
       set_children 2 (VList [VObj 3]);; set_parent 3 (VObj 2);;
       set_children 3 (VList [VObj 4]);; set_parent 4 (VObj 3);;
       set_children 4 (VList [VObj 5]);; set_parent 5 (VObj 4);;
       set_children 5 (VList [VObj 6]);; set_parent 6 (VObj 5);;
       set_encodingFunctions 6 (VList [VEncodingFunction 0; VEncodingFunction 1])) ∅.

(** A single field. *)
Definition lone_field : heap :=
  run (__init__ 1 Field 401 VNone VNone (VBool false)) ∅.

(** The generic list setter that the four list setters instantiate. *)
Definition set_list (self : ref) (s : slot) (values : pyval) : M unit :=
  clear self s;;
  l ← load self (λ _, VTypedList self s); extend l values.

(** The longest prefix of [vs] whose members pass the check of a list of
    class [t], and the outcome of appending [vs] to such a list. *)
Fixpoint accepted (t : pytype) (vs : list pyval) : list pyval :=
  match vs with
  | [] => []
  | v :: vs' => if TL.check t v then v :: accepted t vs' else []
  end.

Definition verdict (t : pytype) (vs : list pyval) : result unit :=
  if forallb (TL.check t) vs then Val tt else Exc TypeError.

(** A computation relates the store it starts from to the one it leaves,
    whatever its outcome. *)
Definition sound {A} (R : relation heap) (m : M A) : Prop :=
  ∀ h r h', m h = Some (r, h') → R h h'.

(** Nothing changes but the list in slot [s] of object [o]. *)
Definition touches (o : ref) (s : slot) : relation heap :=
  λ h h', ∀ x, match h !! x with
               | Some n => ∃ n', h' !! x = Some n' ∧ same_but s n n' ∧ (x ≠ o → n' = n)
               | None => h' !! x = None
               end.

(** Objects keep their [id], and new objects carry a UUID. *)
Definition keeps_id : relation heap :=
  λ h h', ∀ x n', h' !! x = Some n' →
    (∃ n, h !! x = Some n ∧ __id n' = __id n) ∨ (∃ u, __id n' = VUUID u).

(** An executable walk up the parent references, and the check that every
    object of a store has a finite chain. *)
Fixpoint chain_of (fuel : nat) (h : heap) (r : ref) : option (list ref) :=
  match fuel with
  | 0 => None
  | S k =>
      match parent_of h r with
      | Some VNone => Some [r]
      | Some (VObj p) => cons r <$> chain_of k h p
      | _ => None
      end
  end.

Definition acyclicb (h : heap) : bool :=
  forallb (λ r, bool_decide (is_Some (chain_of (S (size h)) h r)))
          (map_to_list h).*1.

(** Between [h] and [h'] nothing changed but the sequence of pipeline [p] of
    object [self]: every object is still there with the same class, scalar
    attributes, children, parent and other two pipelines, and no object
    appeared. *)
Definition only_pipeline_changed (p : pipeline) (self : ref) (h h' : heap) : Prop :=
  ∀ x, match h !! x with
       | Some n =>
           ∃ n', h' !! x = Some n' ∧
                 (x ≠ self → n' = n) ∧
                 __class__ n' = __class__ n ∧
                 __id n' = __id n ∧
                 __name n' = __name n ∧
                 __regex n' = __regex n ∧
                 __layer n' = __layer n ∧
                 __description n' = __description n ∧
                 __children n' = __children n ∧
                 __parent n' = __parent n ∧
                 _variable n' = _variable n ∧
                 ∀ p', p' ≠ p →
                       slot_get (pipeline_slot p') n' = slot_get (pipeline_slot p') n
       | None => h' !! x = None
       end.

(** ** The properties of the class, grouped *)

(** The four list properties, by the slot they expose. *)
Definition getter (s : slot) : ref → M pyval :=
  match s with
  | Children => get_children
  | EncodingFunctions => get_encodingFunctions
  | VisualizationFunctions => get_visualizationFunctions
  | TransformationFunctions => get_transformationFunctions
  end.

Definition setter (s : slot) : ref → pyval → M unit :=
  match s with
  | Children => set_children
  | EncodingFunctions => set_encodingFunctions
  | VisualizationFunctions => set_visualizationFunctions
  | TransformationFunctions => set_transformationFunctions
  end.

Definition clearer (s : slot) : ref → M unit :=
  match s with
  | Children => clearChildren
  | EncodingFunctions => clearEncodingFunctions
  | VisualizationFunctions => clearVisualizationFunctions
  | TransformationFunctions => clearTransformationFunctions
  end.

(** The four type-checked scalar properties other than [id]. *)
Inductive scalar := attr_name | attr_regex | attr_layer | attr_description.

Definition scalar_get (a : scalar) : ref → M pyval :=
  match a with
  | attr_name => get_name
  | attr_regex => get_regex
  | attr_layer => get_layer
  | attr_description => get_description
  end.

Definition scalar_set (a : scalar) : ref → pyval → M unit :=
  match a with
  | attr_name => set_name
  | attr_regex => set_regex
  | attr_layer => set_layer
  | attr_description => set_description
  end.

(** The class named by the decorator of the setter. *)
Definition scalar_type (a : scalar) : pytype :=
  match a with
  | attr_name => Tstr
  | attr_regex => TNetzobRegex
  | attr_layer => Tbool
  | attr_description => Tstr
  end.

Definition scalar_field (a : scalar) : node → pyval :=
  match a with
  | attr_name => __name
  | attr_regex => __regex
  | attr_layer => __layer
  | attr_description => __description
  end.

Definition scalar_with (a : scalar) : pyval → node → node :=
  match a with
  | attr_name => with_name
  | attr_regex => with_regex
  | attr_layer => with_layer
  | attr_description => with_description
  end.

(** Between [h] and [h'] nothing changed but attribute [a] of [self]. *)
Definition only_scalar_changed (a : scalar) (self : ref) (h h' : heap) : Prop :=
  ∀ x, match h !! x with
       | Some n =>
           ∃ n', h' !! x = Some n' ∧ (x ≠ self → n' = n) ∧
                 scalar_with a (scalar_field a n) n' = n
       | None => h' !! x = None
       end.

(** ** Well-typed nodes *)

(** What the decorator of a setter lets through. *)
Definition typed (t : pytype) (v : pyval) : bool := is_None v || isinstance v t.

(** The attributes that only checked code paths write hold values of the
    expected classes. *)
Definition node_ok (n : node) : Prop :=
  isinstance (__id n) TUUID = true ∧
  typed Tstr (__description n) = true ∧
  typed SELF (__parent n) = true ∧
  _variable n = VNone ∧
  ∀ s, forallb (TL.check (membersTypes s)) (slot_get s n) = true.

Definition heap_ok (h : heap) : Prop := ∀ x n, h !! x = Some n → node_ok n.

Definition keeps_ok : relation heap := λ h h', heap_ok h → heap_ok h'.

(** [nearest_Symbol h r s]: [s] is the first symbol met from [r] upwards,
    [r] included. *)
Inductive nearest_Symbol (h : heap) : ref → ref → Prop :=
  | nearest_here r :
      is_Symbol h r = true → nearest_Symbol h r r
  | nearest_up r p s :
      is_Symbol h r = false → parent_of h r = Some (VObj p) →
      nearest_Symbol h p s → nearest_Symbol h r s.

(** A field 2 whose children hold two fields and whose encoding functions
    hold one, beside a field 1 with three encoding functions. *)
Definition two_fields : heap :=
  run (__init__ 1 Field 601 (VStr "left") VNone (VBool false);;
       __init__ 2 Field 602 (VStr "right") VNone (VBool false);;
       __init__ 3 Field 603 VNone VNone (VBool false);;
       set_encodingFunctions 1
         (VList [VEncodingFunction 0; VEncodingFunction 1; VEncodingFunction 2]);;
       set_encodingFunctions 2 (VList [VEncodingFunction 9]);;
       set_children 2 (VList [VObj 3; VObj 1])) ∅.

(** The values a [for] loop accepts among those of the model. *)
Definition iterable (v : pyval) : bool :=
  match v with
  | VList _ | VTypedList _ _ | VStr _ => true
  | _ => false
  end.

(** The store a sequence of calls leaves, when each of them has a
    behaviour. *)
Fixpoint run_calls (cs : list call) (h : heap) : option heap :=
  match cs with
  | [] => Some h
  | c :: cs' =>
      match exec c h with
      | Some (_, h') => run_calls cs' h'
      | None => None
      end
  end.

(** A field 1 below a symbol 2 whose parent is the field 1 again: the
    parent references form a cycle. *)
Definition symbol_on_cycle : heap :=
  run (__init__ 1 Field 701 VNone VNone (VBool false);;
       __init__ 2 Symbol 702 VNone VNone (VBool false);;
       set_parent 1 (VObj 2);;
       set_parent 2 (VObj 1)) ∅.

(** Existing objects keep their parent reference, and an object that
    appears has none. *)
Definition keeps_parents : relation heap :=
  λ h h', ∀ x, parent_of h' x = parent_of h x ∨
               (h !! x = None ∧ parent_of h' x = Some VNone).

(** * Properties *)

Ltac unfold_M :=
  unfold mbind, M_bind, mret, M_ret, bind, ret, raise, load, store in *.

Section node_lemmas.
Implicit Types (n : node) (s : slot) (t : TypedList).

Lemma slot_set_get s n : slot_set s (slot_get s n) n = n.
Proof. by destruct n, s. Qed.

Lemma slot_set_set s t t' n : slot_set s t (slot_set s t' n) = slot_set s t n.
Proof. by destruct s. Qed.

Lemma slot_get_set s t n : slot_get s (slot_set s t n) = t.
Proof. by destruct s. Qed.

Lemma slot_get_set_ne s s' t n : s ≠ s' → slot_get s' (slot_set s t n) = slot_get s' n.
Proof. by destruct s, s'. Qed.

Lemma slot_set_parent s t n : __parent (slot_set s t n) = __parent n.
Proof. by destruct s. Qed.

Lemma slot_set_class s t n : __class__ (slot_set s t n) = __class__ n.
Proof. by destruct s. Qed.

Lemma slot_set_id s t n : __id (slot_set s t n) = __id n.
Proof. by destruct s. Qed.

Lemma same_but_refl s n : same_but s n n.
Proof. apply slot_set_get. Qed.

Lemma same_but_trans s n1 n2 n3 :
  same_but s n1 n2 → same_but s n2 n3 → same_but s n1 n3.
Proof.
  unfold same_but. intros H12 H23.
  rewrite <- H23 in H12. by rewrite slot_set_set in H12.
Qed.

Lemma same_but_slot_set s t n : same_but s n (slot_set s t n).
Proof. unfold same_but. by rewrite slot_set_set, slot_set_get. Qed.

Lemma same_but_fields s n n' :
  same_but s n n' →
  __class__ n' = __class__ n ∧ __id n' = __id n ∧ __name n' = __name n ∧
  __regex n' = __regex n ∧ __layer n' = __layer n ∧
  __description n' = __description n ∧ __parent n' = __parent n ∧
  _variable n' = _variable n ∧
  ∀ s', s' ≠ s → slot_get s' n' = slot_get s' n.
Proof.
  unfold same_but. intros <-.
  repeat split; try by destruct s.
  intros s' Hs'. by destruct s, s'.
Qed.
End node_lemmas.

(** ** Exact effect of the list operations *)

Lemma clear_loop_spec o s fuel (h : heap) n :
  h !! o = Some n →
  length (slot_get s n) < fuel →
  clear_loop fuel o s h = Some (Val tt, <[o := slot_set s [] n]> h).
Proof.
  revert h n. induction fuel as [|fuel IH]; intros h n Hn Hlen; [lia|].
  cbn [clear_loop]. unfold tl_len, tl_pop, TL.len. unfold_M. rewrite Hn.
  assert (slot_get s n = [] ∨ ∃ l x, slot_get s n = l ++ [x]) as [Hl|(l & x & Hl)]
    by (destruct (slot_get s n) using rev_ind; eauto).
  - rewrite Hl. cbn. rewrite <- Hl, slot_set_get. by rewrite insert_id.
  - rewrite Hl in Hlen |- *.
    rewrite bool_decide_true by (rewrite length_app; cbn; lia).
    rewrite Hn. unfold TL.pop. rewrite Hl, last_snoc, removelast_last, Hn.
    rewrite (IH _ (slot_set s l n)).
    + by rewrite slot_set_set, insert_insert_eq.
    + apply lookup_insert_eq.
    + rewrite slot_get_set. rewrite length_app in Hlen. cbn in Hlen. lia.
Qed.

Lemma clear_spec o s (h : heap) n :
  h !! o = Some n →
  clear o s h = Some (Val tt, <[o := slot_set s [] n]> h).
Proof.
  intros Hn. unfold clear, tl_len. unfold_M. rewrite Hn.
  apply clear_loop_spec; [done | unfold TL.len; lia].
Qed.

Lemma tl_extend_spec o s vs (h : heap) n :
  h !! o = Some n →
  tl_extend o s vs h =
    Some (verdict (membersTypes s) vs,
          <[o := slot_set s (slot_get s n ++ accepted (membersTypes s) vs) n]> h).
Proof.
  revert h n. induction vs as [|v vs IH]; intros h n Hn.
  - cbn. unfold_M. rewrite app_nil_r, slot_set_get. by rewrite insert_id.
  - cbn [tl_extend accepted]. unfold tl_append, TL.append, verdict. unfold_M.
    rewrite Hn. cbn [forallb].
    destruct (TL.check (membersTypes s) v) eqn:Hv; cbn.
    + rewrite Hn. rewrite (IH _ (slot_set s (slot_get s n ++ [v]) n))
        by apply lookup_insert_eq.
      rewrite slot_get_set, slot_set_set, insert_insert_eq.
      by rewrite <- app_assoc.
    + rewrite app_nil_r, slot_set_get. by rewrite insert_id.
Qed.

(** A list setter given a plain list: the old elements go, the accepted
    prefix of the new ones comes in. *)
Lemma set_list_spec self s vs (h : heap) n :
  h !! self = Some n →
  set_list self s (VList vs) h =
    Some (verdict (membersTypes s) vs,
          <[self := slot_set s (accepted (membersTypes s) vs) n]> h).
Proof.
  intros Hn. unfold set_list. unfold_M.
  rewrite (clear_spec _ _ _ _ Hn). rewrite lookup_insert_eq.
  unfold extend, iterate. unfold_M.
  rewrite (tl_extend_spec _ _ _ _ (slot_set s [] n)) by apply lookup_insert_eq.
  by rewrite slot_get_set, slot_set_set, insert_insert_eq.
Qed.

(** A list setter given the very list it assigns to: the list is cleared
    before it is read, so nothing is left to append. *)
Lemma set_list_alias self s (h : heap) n :
  h !! self = Some n →
  set_list self s (VTypedList self s) h =
    Some (Val tt, <[self := slot_set s [] n]> h).
Proof.
  intros Hn. unfold set_list. unfold_M.
  rewrite (clear_spec _ _ _ _ Hn). rewrite lookup_insert_eq.
  unfold extend, iterate. unfold_M.
  rewrite lookup_insert_eq, slot_get_set. cbn. unfold_M. done.
Qed.

Lemma accepted_all t vs :
  forallb (TL.check t) vs = true → accepted t vs = vs.
Proof.
  induction vs as [|v vs IH]; cbn; [done|].
  destruct (TL.check t v); cbn; [|done]. intros H. by rewrite IH.
Qed.

Lemma check_children (cs : list ref) :
  forallb (TL.check TAbstractField) (VObj <$> cs) = true.
Proof. by induction cs. Qed.

Lemma check_encoding (fs : list nat) :
  forallb (TL.check TEncodingFunction) (VEncodingFunction <$> fs) = true.
Proof. by induction fs. Qed.

Lemma set_lists_unfold self v :
  set_children self v = set_list self Children v ∧
  set_encodingFunctions self v = set_list self EncodingFunctions v ∧
  set_visualizationFunctions self v = set_list self VisualizationFunctions v ∧
  set_transformationFunctions self v = set_list self TransformationFunctions v.
Proof. done. Qed.

(** ** Relating the store before and after a computation *)

Section sound.
Context (R : relation heap) `{!PreOrder R}.

Lemma sound_ret {A} (a : A) : sound R (ret a).
Proof. intros h r h' [= <- <-]. reflexivity. Qed.

Lemma sound_raise {A} e : sound R (@raise A e).
Proof. intros h r h' [= <- <-]. reflexivity. Qed.

Lemma sound_none {A} : sound R (λ _, None : option (result A * heap)).
Proof. by intros h r h'. Qed.

Lemma sound_load {A} o (f : node → A) : sound R (load o f).
Proof.
  intros h r h'. unfold load. destruct (h !! o); [|done].
  intros [= <- <-]. reflexivity.
Qed.

Lemma sound_bind {A B} (m : M A) (k : A → M B) :
  sound R m → (∀ a, sound R (k a)) → sound R (bind m k).
Proof.
  intros Hm Hk h r h'. unfold bind.
  destruct (m h) as [[[a|e] h1]|] eqn:E; [| |done].
  - intros Hka. etransitivity; [by eapply Hm | by eapply Hk].
  - intros [= <- <-]. by eapply Hm.
Qed.

Lemma sound_bind_load {A B} o (f : node → A) (k : A → M B) :
  (∀ n, sound R (k (f n))) → sound R (bind (load o f) k).
Proof.
  intros Hk h r h'. unfold bind, load.
  destruct (h !! o) as [n|]; [|done]. apply Hk.
Qed.

Lemma sound_store o f :
  (∀ h n, h !! o = Some n → R h (<[o := f n]> h)) → sound R (store o f).
Proof.
  intros Hf h r h'. unfold store. destruct (h !! o) eqn:E; [|done].
  intros [= <- <-]. by apply Hf.
Qed.
End sound.

Ltac sound_step :=
  lazymatch goal with
  | |- sound _ (mbind _ _) => unfold mbind, M_bind
  | |- sound _ (mret _) => unfold mret, M_ret
  | |- sound _ (bind (load _ _) _) => apply sound_bind_load; intros ?
  | |- sound _ (bind _ _) => apply sound_bind; [try apply _ | | intros ?]
  | |- sound _ (ret _) => apply sound_ret; apply _
  | |- sound _ (raise _) => apply sound_raise; apply _
  | |- sound _ (load _ _) => apply sound_load; apply _
  | |- sound _ (λ _, None) => apply sound_none
  | |- sound _ (if ?b then _ else _) => destruct b
  | |- sound _ (match ?x with _ => _ end) => destruct x
  | |- sound _ (let '(_, _) := ?x in _) => destruct x
  end.

Ltac sound_auto := repeat sound_step.

Global Instance touches_preorder o s : PreOrder (touches o s).
Proof.
  split.
  - intros h x. destruct (h !! x) as [n|] eqn:E; [|done].
    exists n. split; [done|]. split; [apply same_but_refl | done].
  - intros h1 h2 h3 H12 H23 x. specialize (H12 x). specialize (H23 x).
    destruct (h1 !! x) as [n1|] eqn:E1.
    + destruct H12 as (n2 & E2 & Hs12 & Hne12). rewrite E2 in H23.
      destruct H23 as (n3 & E3 & Hs23 & Hne23).
      exists n3. split; [done|]. split; [by eapply same_but_trans|].
      intros Hx. by rewrite Hne23, Hne12.
    + by rewrite H12 in H23.
Qed.

Lemma touches_store o s t (h : heap) n :
  h !! o = Some n → touches o s h (<[o := slot_set s t n]> h).
Proof.
  intros Hn x. destruct (decide (x = o)) as [->|Hne].
  - rewrite Hn, lookup_insert_eq. eexists. split; [done|].
    split; [apply same_but_slot_set | done].
  - rewrite lookup_insert_ne by done.
    destruct (h !! x) as [n'|]; [|done].
    exists n'. split; [done|]. split; [apply same_but_refl | done].
Qed.

Lemma tl_append_touches o s v : sound (touches o s) (tl_append o s v).
Proof.
  unfold tl_append. sound_auto.
  apply sound_store. intros. by apply touches_store.
Qed.

Lemma tl_pop_touches o s : sound (touches o s) (tl_pop o s).
Proof.
  unfold tl_pop. sound_auto.
  apply sound_store. intros. by apply touches_store.
Qed.

Lemma tl_extend_touches o s vs : sound (touches o s) (tl_extend o s vs).
Proof.
  induction vs as [|v vs IH]; cbn [tl_extend]; sound_auto; [|done].
  apply tl_append_touches.
Qed.

Lemma clear_touches o s : sound (touches o s) (clear o s).
Proof.
  unfold clear, tl_len. sound_auto.
  match goal with |- sound _ (clear_loop ?k _ _) => generalize k end.
  intros fuel. induction fuel as [|fuel IH]; cbn [clear_loop]; unfold tl_len;
    sound_auto; [|done]. apply tl_pop_touches.
Qed.

Lemma iterate_sound R `{!PreOrder R} v : sound R (iterate v).
Proof. unfold iterate. sound_auto. Qed.

Lemma set_list_touches self s v : sound (touches self s) (set_list self s v).
Proof.
  unfold set_list. sound_auto; [apply clear_touches|].
  unfold extend. sound_auto; [apply iterate_sound; apply _|].
  apply tl_extend_touches.
Qed.

Lemma sound_weaken {A} (R R' : relation heap) (m : M A) :
  (∀ h h', R h h' → R' h h') → sound R m → sound R' m.
Proof. intros HR Hm h r h' E. apply HR. by eapply Hm. Qed.

Lemma extend_touches o s v : sound (touches o s) (extend (VTypedList o s) v).
Proof.
  unfold extend. sound_auto; [apply iterate_sound; apply _|].
  apply tl_extend_touches.
Qed.

(** ** The [id] of an object *)

Global Instance keeps_id_preorder : PreOrder keeps_id.
Proof.
  split.
  - intros h x n' E. left. by exists n'.
  - intros h1 h2 h3 H12 H23 x n3 E3.
    destruct (H23 x n3 E3) as [(n2 & E2 & Hid)|Hu]; [|by right].
    destruct (H12 x n2 E2) as [(n1 & E1 & Hid')|[u Hu]].
    + left. exists n1. split; [done | congruence].
    + right. exists u. congruence.
Qed.

Lemma keeps_id_store o f (h : heap) n :
  (∀ n, __id (f n) = __id n) →
  h !! o = Some n → keeps_id h (<[o := f n]> h).
Proof.
  intros Hf Hn x n' E. left. destruct (decide (x = o)) as [->|Hne].
  - rewrite lookup_insert_eq in E. injection E as <-. by exists n.
  - rewrite lookup_insert_ne in E by done. by exists n'.
Qed.

Lemma touches_keeps_id o s h h' : touches o s h h' → keeps_id h h'.
Proof.
  intros Ht x n' E. specialize (Ht x). left.
  destruct (h !! x) as [n|]; [|congruence].
  destruct Ht as (n'' & E' & Hs & _). exists n. split; [done|].
  assert (n'' = n') as -> by congruence.
  by apply same_but_fields in Hs as (_ & ? & _).
Qed.

Lemma init_keeps_id self cls u name regex layer :
  sound keeps_id (__init__ self cls u name regex layer).
Proof.
  intros h r h'. unfold __init__. destruct (h !! self) eqn:E; [done|].
  intros [= <- <-] x n' E'. destruct (decide (x = self)) as [->|Hne].
  - rewrite lookup_insert_eq in E'. injection E' as <-. right. by exists u.
  - rewrite lookup_insert_ne in E' by done. left. by exists n'.
Qed.

Lemma set_id_keeps_id self v : sound keeps_id (set_id self v).
Proof.
  intros h r h'. unfold set_id, typeCheck. unfold_M.
  destruct v; cbn; try (intros [= <- <-]; reflexivity).
  destruct (h !! self) as [n|] eqn:E; [|done].
  intros [= <- <-] x n' E'. destruct (decide (x = self)) as [->|Hne].
  - rewrite lookup_insert_eq in E'. injection E' as <-. right. by exists u.
  - rewrite lookup_insert_ne in E' by done. left. by exists n'.
Qed.

Lemma getSymbol_sound R `{!PreOrder R} fuel self : sound R (getSymbol fuel self).
Proof.
  revert self. induction fuel as [|fuel IH]; intros self; cbn [getSymbol].
  - apply sound_none.
  - unfold hasParent, get_parent. sound_auto. apply IH.
Qed.

Ltac keeps_id_store :=
  apply sound_store; intros; by apply keeps_id_store.

Lemma exec_keeps_id c : sound keeps_id (exec c).
Proof.
  destruct c; cbn [exec]; unfold void.
  - sound_auto. apply init_keeps_id.
  - unfold getCells. sound_auto.
  - unfold getValues. sound_auto.
  - unfold generate. sound_auto.
  - apply getSymbol_sound, _.
  - unfold hasParent. sound_auto.
  - assert (sound keeps_id (clear self s)).
    { eapply sound_weaken; [apply touches_keeps_id | apply clear_touches]. }
    destruct s; sound_auto; done.
  - unfold get_id. sound_auto.
  - sound_auto. apply set_id_keeps_id.
  - unfold get_name. sound_auto.
  - unfold set_name, typeCheck. sound_auto. keeps_id_store.
  - unfold get_regex. sound_auto.
  - unfold set_regex, typeCheck. sound_auto. keeps_id_store.
  - unfold get_layer. sound_auto.
  - unfold set_layer, typeCheck. sound_auto. keeps_id_store.
  - unfold get_description. sound_auto.
  - unfold set_description, typeCheck. sound_auto. keeps_id_store.
  - destruct s; cbn; apply sound_load, _.
  - assert (sound keeps_id (set_list self s v)).
    { eapply sound_weaken; [apply touches_keeps_id | apply set_list_touches]. }
    destruct s; sound_auto; done.
  - unfold get_parent. sound_auto.
  - unfold set_parent, typeCheck. sound_auto. keeps_id_store.
  - unfold storeInMemento. sound_auto.
  - unfold restoreFromMemento. sound_auto.
  - sound_auto.
    destruct l;
      first [ by eapply sound_weaken; [apply touches_keeps_id | apply extend_touches]
            | unfold extend; sound_auto ].
  - eapply sound_weaken; [apply touches_keeps_id | apply tl_pop_touches].
Qed.

Lemma reachable_id h :
  reachable h → ∀ x n, h !! x = Some n → ∃ u, __id n = VUUID u.
Proof.
  induction 1 as [|h c r h' Hreach IH Hexec]; intros x n Hn.
  - by rewrite lookup_empty in Hn.
  - destruct (exec_keeps_id c _ _ _ Hexec x n Hn) as [(n0 & E0 & Hid)|Hu]; [|done].
    rewrite Hid. by eapply IH.
Qed.

(** ** Walking up to the symbol *)

Lemma parent_of_Some (h : heap) r v :
  parent_of h r = Some v ↔ ∃ n, h !! r = Some n ∧ __parent n = v.
Proof.
  unfold parent_of. destruct (h !! r) as [n|]; cbn; split.
  - intros [= <-]. by exists n.
  - intros (n' & [= <-] & <-). done.
  - done.
  - by intros (n' & ? & _).
Qed.

Lemma is_Symbol_class (h : heap) r n :
  h !! r = Some n → is_Symbol h r = bool_decide (__class__ n = Symbol).
Proof.
  intros Hn. unfold is_Symbol. rewrite Hn. cbn.
  apply bool_decide_ext. split; congruence.
Qed.

(** One unfolding of the method on an existing object. *)
Lemma getSymbol_step fuel r (h : heap) n :
  h !! r = Some n →
  getSymbol (S fuel) r h =
    if is_Symbol h r then Some (Val (VObj r), h)
    else match __parent n with
         | VNone => Some (Exc NoSymbolException, h)
         | VObj p => getSymbol fuel p h
         | _ => Some (Exc AttributeError, h)
         end.
Proof.
  intros Hn. rewrite (is_Symbol_class _ _ _ Hn).
  cbn [getSymbol]. unfold hasParent, get_parent. unfold_M. rewrite Hn.
  destruct (bool_decide (__class__ n = Symbol)); [done|].
  rewrite Hn. destruct (__parent n) eqn:Hp; cbn; rewrite ?Hn; cbn; by rewrite ?Hp.
Qed.




Lemma chain_head (h : heap) r l : chain h r l → ∃ l', l = r :: l'.
Proof. destruct 1; eauto. Qed.

Lemma chain_det (h : heap) r l1 l2 : chain h r l1 → chain h r l2 → l1 = l2.
Proof.
  intros H1. revert l2. induction H1 as [r Hp | r p l Hp Hc IH]; intros l2 H2;
    destruct H2 as [r Hp2 | r p2 l2 Hp2 Hc2]; try congruence.
  assert (p2 = p) as -> by congruence. f_equal. by apply IH.
Qed.

(** Every node of a chain has its own chain, a suffix of the first. *)
Lemma chain_suffix (h : heap) r l a :
  chain h r l → a ∈ l → ∃ la, chain h a la ∧ length la ≤ length l.
Proof.
  induction 1 as [r Hp | r p l Hp Hc IH]; intros Ha.
  - apply list_elem_of_singleton in Ha as ->. exists [r]. split; [by constructor | done].
  - apply elem_of_cons in Ha as [->|Ha].
    + exists (r :: l). split; [by econstructor | done].
    + destruct (IH Ha) as (la & Hla & Hlen). exists la. split; [done | cbn; lia].
Qed.

Lemma on_chain_elem (h : heap) r l a : chain h r l → on_chain h a r → a ∈ l.
Proof.
  intros Hc Ho. revert l Hc. induction Ho as [|r p Hp Ho IH]; intros l Hc.
  - destruct (chain_head _ _ _ Hc) as [l' ->]. by left.
  - destruct Hc as [r Hp' | r p' l Hp' Hc]; [congruence|].
    assert (p' = p) as -> by congruence. right. by apply IH.
Qed.

Lemma elem_on_chain (h : heap) r l a : chain h r l → a ∈ l → on_chain h a r.
Proof.
  induction 1 as [r Hp | r p l Hp Hc IH]; intros Ha.
  - apply list_elem_of_singleton in Ha as ->. constructor.
  - apply elem_of_cons in Ha as [->|Ha]; [constructor|].
    econstructor; [done | by apply IH].
Qed.

(** A node with a finite chain is not among its own proper ancestors. *)
Lemma finite_chain_irrefl (h : heap) r p :
  finite_chain h r → parent_of h r = Some (VObj p) → ¬ on_chain h r p.
Proof.
  intros [l Hc] Hp Ho.
  destruct Hc as [r Hp' | r p' l Hp' Hc]; [congruence|].
  assert (p' = p) as -> by congruence.
  pose proof (on_chain_elem _ _ _ _ Hc Ho) as Hr.
  destruct (chain_suffix _ _ _ _ Hc Hr) as (lr & Hlr & Hlen).
  assert (lr = r :: l) as -> by (eapply chain_det; [done | by econstructor]).
  cbn in Hlen. lia.
Qed.

(** ** Effect of the structural edits on the parent relation *)

Lemma set_parent_spec self (q : pyval) (h : heap) n :
  h !! self = Some n →
  set_parent self q h =
    if is_None q || isinstance q SELF
    then Some (Val tt, <[self := with_parent q n]> h)
    else Some (Exc TypeError, h).
Proof.
  intros Hn. unfold set_parent, typeCheck. unfold_M.
  destruct (is_None q || isinstance q SELF); cbn; by rewrite ?Hn.
Qed.

Lemma parent_of_insert (h : heap) self n q x :
  parent_of (<[self := with_parent q n]> h) x =
    if decide (x = self) then Some q else parent_of h x.
Proof.
  unfold parent_of. destruct (decide (x = self)) as [->|Hne].
  - by rewrite lookup_insert_eq.
  - by rewrite lookup_insert_ne.
Qed.

Lemma touches_parent_of o s h h' x :
  touches o s h h' → parent_of h' x = parent_of h x.
Proof.
  intros Ht. specialize (Ht x). unfold parent_of.
  destruct (h !! x) as [n|].
  - destruct Ht as (n' & -> & Hs & _). cbn. f_equal.
    by apply same_but_fields in Hs as (_ & _ & _ & _ & _ & _ & ? & _).
  - by rewrite Ht.
Qed.

Lemma touches_is_Some o s (h h' : heap) x :
  touches o s h h' → is_Some (h' !! x) → is_Some (h !! x).
Proof.
  intros Ht. specialize (Ht x). destruct (h !! x) as [n|]; [by eauto|].
  rewrite Ht. by intros [? ?].
Qed.

(** A chain is determined by the parent references of its nodes. *)
Lemma chain_transfer (h h' : heap) r l :
  chain h r l →
  (∀ x, x ∈ l → parent_of h' x = parent_of h x) →
  chain h' r l.
Proof.
  induction 1 as [r Hp | r p l Hp Hc IH]; intros Heq.
  - constructor. rewrite Heq; [done | by left].
  - econstructor.
    + rewrite Heq; [done | by left].
    + apply IH. intros x Hx. apply Heq. by right.
Qed.

Lemma touches_acyclic o s h h' : touches o s h h' → acyclic h → acyclic h'.
Proof.
  intros Ht Hac r Hr.
  destruct (Hac r (touches_is_Some _ _ _ _ _ Ht Hr)) as [l Hl].
  exists l. eapply chain_transfer; [done|].
  intros x _. by eapply touches_parent_of.
Qed.

Lemma on_chain_set_parent (h : heap) self n q x :
  on_chain h self x → on_chain (<[self := with_parent q n]> h) self x.
Proof.
  induction 1 as [|r p Hp Ho IH]; [constructor|].
  destruct (decide (r = self)) as [->|Hne]; [constructor|].
  econstructor; [|done]. rewrite parent_of_insert. by rewrite decide_False.
Qed.

(** Giving [self] the parent [q] keeps every chain finite when [self] is
    not on the chain of [q]. *)
Lemma set_parent_acyclic (h : heap) self n q :
  acyclic h → h !! self = Some n →
  finite_chain h q → ¬ on_chain h self q →
  acyclic (<[self := with_parent (VObj q) n]> h).
Proof.
  intros Hac Hn [lq Hq] Hnot.
  set (h' := <[self := with_parent (VObj q) n]> h).
  assert (chain h' self (self :: lq)) as Hself.
  { econstructor.
    - unfold h'. rewrite parent_of_insert. by rewrite decide_True.
    - eapply chain_transfer; [done|]. intros x Hx. unfold h'.
      rewrite parent_of_insert. rewrite decide_False; [done|].
      intros ->. apply Hnot. by eapply elem_on_chain. }
  intros r Hr.
  assert (is_Some (h !! r)) as Hr0.
  { unfold h' in Hr. destruct (decide (r = self)) as [->|Hne]; [by eauto|].
    by rewrite lookup_insert_ne in Hr. }
  destruct (Hac r Hr0) as [l Hl]. clear Hr Hr0.
  induction Hl as [r Hp | r p l Hp Hc IH].
  - destruct (decide (r = self)) as [->|Hne]; [by eexists|].
    exists [r]. constructor. unfold h'. rewrite parent_of_insert.
    by rewrite decide_False.
  - destruct (decide (r = self)) as [->|Hne]; [by eexists|].
    destruct IH as [l' Hl']. exists (r :: l'). econstructor; [|done].
    unfold h'. rewrite parent_of_insert. by rewrite decide_False.
Qed.

(** Removing the parent of [self] keeps every chain finite. *)
Lemma set_parent_None_acyclic (h : heap) self n :
  acyclic h → h !! self = Some n →
  acyclic (<[self := with_parent VNone n]> h).
Proof.
  intros Hac Hn.
  set (h' := <[self := with_parent VNone n]> h).
  assert (chain h' self [self]) as Hself.
  { constructor. unfold h'. rewrite parent_of_insert. by rewrite decide_True. }
  intros r Hr.
  assert (is_Some (h !! r)) as Hr0.
  { unfold h' in Hr. destruct (decide (r = self)) as [->|Hne]; [by eauto|].
    by rewrite lookup_insert_ne in Hr. }
  destruct (Hac r Hr0) as [l Hl]. clear Hr Hr0.
  induction Hl as [r Hp | r p l Hp Hc IH].
  - destruct (decide (r = self)) as [->|Hne]; [by eexists|].
    exists [r]. constructor. unfold h'. rewrite parent_of_insert.
    by rewrite decide_False.
  - destruct (decide (r = self)) as [->|Hne]; [by eexists|].
    destruct IH as [l' Hl']. exists (r :: l'). econstructor; [|done].
    unfold h'. rewrite parent_of_insert. by rewrite decide_False.
Qed.

(** Giving [self] a parent whose chain passes through [self] closes a
    cycle. *)
Lemma set_parent_cyclic (h : heap) self n q :
  on_chain h self q →
  ¬ finite_chain (<[self := with_parent (VObj q) n]> h) self.
Proof.
  intros Ho Hfin. eapply finite_chain_irrefl; [done | |].
  - rewrite parent_of_insert. by rewrite decide_True.
  - by apply on_chain_set_parent.
Qed.

(** ** The executable acyclicity check *)

Lemma chain_of_sound fuel (h : heap) r l :
  chain_of fuel h r = Some l → chain h r l.
Proof.
  revert r l. induction fuel as [|fuel IH]; intros r l; cbn [chain_of]; [done|].
  destruct (parent_of h r) as [[| | | | | |p| | | | |]|] eqn:Hp; try done.
  - intros [= <-]. by constructor.
  - destruct (chain_of fuel h p) as [l'|] eqn:E; [|done].
    intros [= <-]. econstructor; [done | by apply IH].
Qed.

Lemma acyclicb_sound (h : heap) : acyclicb h = true → acyclic h.
Proof.
  unfold acyclicb. rewrite forallb_forall. intros Hall r [n Hn].
  assert (In r (map_to_list h).*1) as Hin.
  { apply list_elem_of_In, list_elem_of_fmap. exists (r, n).
    split; [done|]. by apply elem_of_map_to_list. }
  apply Hall, bool_decide_eq_true in Hin as [l Hl].
  exists l. by eapply chain_of_sound.
Qed.

(** * The claims *)

(** ** C1: the children setter and the parent back-references *)

(** C1, as stated, fails.  Assigning [[2]] as the children of node 1 in
    [three_nodes] returns normally and leaves node 2 without parent, so not
    every incoming child has the assigning node as parent; assigning [[2]]
    to node 3 as well leaves node 2 in the children of both 1 and 3; and
    emptying the children of node 1 in [deep_tree] leaves the parent
    reference of its previous child 2 in place. *)
Lemma C1_children_set_counterexample :
  ¬ (∀ (h : heap) (p : ref) (cs : list ref) h',
       is_Some (h !! p) → (∀ c, c ∈ cs → is_Some (h !! c)) →
       set_children p (VList (VObj <$> cs)) h = Some (Val tt, h') →
       ∀ c, c ∈ cs → parent_of h' c = Some (VObj p))
  ∧ (let h' := run (set_children 1 (VList [VObj 2]);;
                    set_children 3 (VList [VObj 2])) three_nodes in
     children_of h' 1 = Some [VObj 2] ∧ children_of h' 3 = Some [VObj 2])
  ∧ (let h' := run (set_children 1 (VList [])) deep_tree in
     children_of h' 1 = Some [] ∧ parent_of h' 2 = Some (VObj 1)).
Proof.
  split; [|by vm_compute].
  intros H.
  specialize (H three_nodes 1 [2]
                (run (set_children 1 (VList [VObj 2])) three_nodes)).
  assert (parent_of (run (set_children 1 (VList [VObj 2])) three_nodes) 2
          = Some (VObj 1)) as Hp.
  { apply H.
    - vm_compute. by eexists.
    - intros c ->%list_elem_of_singleton. vm_compute. by eexists.
    - by vm_compute.
    - by left. }
  vm_compute in Hp. discriminate.
Qed.

(** C1, amended: for every node [p] and every sequence [cs] of field nodes,
    the children setter returns normally and leaves the children of [p]
    equal to [cs], in order; it changes no parent reference of any node
    (neither of the incoming children nor of the previous ones) and no other
    node at all, so a child listed under another node stays listed there. *)
Theorem C1_children_set (h : heap) (p : ref) (n : node) (cs : list ref) :
  h !! p = Some n →
  ∃ h', set_children p (VList (VObj <$> cs)) h = Some (Val tt, h') ∧
        children_of h' p = Some (VObj <$> cs) ∧
        (∀ x, parent_of h' x = parent_of h x) ∧
        (∀ x, x ≠ p → h' !! x = h !! x).
Proof.
  intros Hn. eexists. split; [|split; [|split]].
  - destruct (set_lists_unfold p (VList (VObj <$> cs))) as [-> _].
    rewrite (set_list_spec _ _ _ _ _ Hn). cbn [membersTypes].
    unfold verdict. rewrite (check_children cs).
    by rewrite accepted_all by apply check_children.
  - unfold children_of. by rewrite lookup_insert_eq.
  - intros x. unfold parent_of. destruct (decide (x = p)) as [->|Hne].
    + by rewrite lookup_insert_eq, Hn.
    + by rewrite lookup_insert_ne.
  - intros x Hne. by rewrite lookup_insert_ne.
Qed.

Lemma C1_children_set_witness :
  ∃ n, deep_tree !! 1 = Some n ∧
  ∃ h', set_children 1 (VList (VObj <$> [3; 2])) deep_tree = Some (Val tt, h') ∧
        children_of h' 1 = Some (VObj <$> [3; 2]) ∧
        (∀ x, parent_of h' x = parent_of deep_tree x) ∧
        (∀ x, x ≠ 1 → h' !! x = deep_tree !! x).
Proof.
  eexists. split; [vm_compute; reflexivity|].
  eapply (C1_children_set deep_tree 1 _ [3; 2]).
  vm_compute. reflexivity.
Defined.

(** ** C2: acyclicity is not checked when the tree is edited *)

(** C2, as stated, fails.  In the store holding a single field, whose chain
    is finite, making the field its own parent is applied: the setter
    returns normally, the field is now its own parent, its chain is no
    longer finite, and [getSymbol] on it has no result for any fuel. *)
Lemma C2_acyclicity_counterexample :
  ∃ h', acyclic lone_field ∧
        set_parent 1 (VObj 1) lone_field = Some (Val tt, h') ∧
        parent_of h' 1 = Some (VObj 1) ∧
        ¬ acyclic h' ∧
        ∀ fuel, getSymbol fuel 1 h' = None.
Proof.
  eexists. split; [by apply acyclicb_sound|].
  split; [by vm_compute|]. split; [by vm_compute|]. split.
  - intros Hac. destruct (Hac 1) as [l Hl]; [vm_compute; by eexists|].
    eapply finite_chain_irrefl; [by exists l | by vm_compute | constructor].
  - intros fuel. induction fuel as [|fuel IH]; [done|].
    erewrite getSymbol_step by (by vm_compute). exact IH.
Qed.

(** C2, amended: acyclicity is the caller's business.  In a store whose
    chains are all finite, setting the parent of [self] to any node [q] is
    applied, never rejected; the chains are all finite afterwards exactly
    when [self] is neither [q] nor one of its ancestors.  Removing the
    parent keeps the chains finite, and so does the children setter, which
    changes no parent reference, whatever its argument and outcome. *)
Theorem C2_structural_edits (h : heap) (self q : ref) (n : node) :
  acyclic h → h !! self = Some n → is_Some (h !! q) →
  set_parent self (VObj q) h =
    Some (Val tt, <[self := with_parent (VObj q) n]> h) ∧
  (acyclic (<[self := with_parent (VObj q) n]> h) ↔ ¬ on_chain h self q) ∧
  (∃ h0, set_parent self VNone h = Some (Val tt, h0) ∧ acyclic h0) ∧
  (∀ v r h', set_children self v h = Some (r, h') → acyclic h').
Proof.
  intros Hac Hn Hq. split; [|split; [|split]].
  - by rewrite (set_parent_spec _ _ _ _ Hn).
  - split.
    + intros Hac' Ho. eapply set_parent_cyclic; [done|].
      apply Hac'. rewrite lookup_insert_eq. by eauto.
    + intros Ho. apply set_parent_acyclic; auto.
  - eexists. split; [by rewrite (set_parent_spec _ _ _ _ Hn)|].
    by apply set_parent_None_acyclic.
  - intros v r h' Hset. eapply touches_acyclic; [|done].
    eapply (set_list_touches self Children v). exact Hset.
Qed.

Lemma C2_structural_edits_witness :
  ∃ n, deep_tree !! 2 = Some n ∧
  set_parent 2 (VObj 6) deep_tree =
    Some (Val tt, <[2 := with_parent (VObj 6) n]> deep_tree) ∧
  (acyclic (<[2 := with_parent (VObj 6) n]> deep_tree) ↔ ¬ on_chain deep_tree 2 6) ∧
  (∃ h0, set_parent 2 VNone deep_tree = Some (Val tt, h0) ∧ acyclic h0) ∧
  (∀ v r h', set_children 2 v deep_tree = Some (r, h') → acyclic h').
Proof.
  eexists. split; [vm_compute; reflexivity|].
  apply (C2_structural_edits deep_tree 2 6).
  - apply acyclicb_sound. vm_compute. reflexivity.
  - vm_compute. reflexivity.
  - vm_compute. eexists. reflexivity.
Defined.

(** ** C3: resolving the symbol *)





(** ** C4: the defaults of the base class *)

(** C4: at the level of the base class, for every combination of the flags,
    [getValues] returns the empty sequence and [getCells] the matrix made of
    one empty row, which is not the empty matrix; neither raises, so neither
    raises [AlignmentException], and the store is left as it was. *)
Theorem C4_abstract_defaults (h : heap) (self : ref) (encoded styled transposed : bool) :
  getValues self (VBool encoded) (VBool styled) h = Some (Val (VList []), h) ∧
  getCells self (VBool encoded) (VBool styled) (VBool transposed) h =
    Some (Val (VList [VList []]), h) ∧
  VList [VList []] ≠ VList [] ∧
  (∀ h', getValues self (VBool encoded) (VBool styled) h
         ≠ Some (Exc AlignmentException, h')) ∧
  (∀ h', getCells self (VBool encoded) (VBool styled) (VBool transposed) h
         ≠ Some (Exc AlignmentException, h')).
Proof. by repeat split. Qed.

(** ** C5: the identifier is mandatory *)

(** C5: in every store a program can build, the [id] of a node is not
    [None]; assigning a value that is neither absent nor a UUID fails with
    [TypeError], assigning [None] fails with [ValueError], both being
    validation errors; a failed assignment leaves the store, hence the
    stored [id], unchanged; and an assignment that succeeds stores the
    UUID it was given. *)
Theorem C5_id_mandatory (h : heap) (self : ref) (n : node) :
  reachable h → h !! self = Some n →
  __id n ≠ VNone ∧
  (∀ v, is_None v = false → isinstance v TUUID = false →
        set_id self v h = Some (Exc TypeError, h)) ∧
  set_id self VNone h = Some (Exc ValueError, h) ∧
  (∀ v e h', set_id self v h = Some (Exc e, h') → ValidationError e ∧ h' = h) ∧
  (∀ v h', set_id self v h = Some (Val tt, h') →
           ∃ u, v = VUUID u ∧ __id <$> h' !! self = Some (VUUID u)).
Proof.
  intros Hreach Hn. split; [|split; [|split; [|split]]].
  - destruct (reachable_id _ Hreach _ _ Hn) as [u ->]. done.
  - intros v Hnone Hinst. unfold set_id, typeCheck. unfold_M.
    by rewrite Hnone, Hinst.
  - done.
  - intros v e h'. unfold set_id, typeCheck, ValidationError. unfold_M.
    destruct v; cbn; rewrite ?Hn; intros [= <- <-]; auto.
  - intros v h'. unfold set_id, typeCheck. unfold_M.
    destruct v; cbn; rewrite ?Hn; intros [= <-]; try done.
    exists u. by rewrite lookup_insert_eq.
Qed.

Lemma C5_id_mandatory_witness :
  ∃ n, lone_field !! 1 = Some n ∧
  __id n ≠ VNone ∧
  set_id 1 (VStr "not-a-uuid") lone_field = Some (Exc TypeError, lone_field) ∧
  set_id 1 VNone lone_field = Some (Exc ValueError, lone_field).
Proof.
  eexists. split; [vm_compute; reflexivity|].
  assert (reachable lone_field) as Hreach.
  { apply (reachable_call ∅ (Call_init 1 Field 401 VNone VNone (VBool false)) (Val VNone));
      [constructor | vm_compute; reflexivity]. }
  destruct (C5_id_mandatory lone_field 1 _ Hreach eq_refl)
    as (Hid & Hinvalid & Hnone & _).
  split; [exact Hid|]. split; [|exact Hnone].
  apply Hinvalid; reflexivity.
Defined.

(** ** C6: an unset layer flag *)

(** C6: setting [layer] to [None] does not fail, and the getter then reads
    [False]. *)
Theorem C6_layer_unset (h : heap) (self : ref) (n : node) :
  h !! self = Some n →
  ∃ h', set_layer self VNone h = Some (Val tt, h') ∧
        get_layer self h' = Some (Val (VBool false), h').
Proof.
  intros Hn. eexists. split.
  - unfold set_layer, typeCheck. unfold_M. cbn. by rewrite Hn.
  - unfold get_layer, load. by rewrite lookup_insert_eq.
Qed.

Lemma C6_layer_unset_witness :
  ∃ h', set_layer 2 VNone deep_tree = Some (Val tt, h') ∧
        get_layer 2 h' = Some (Val (VBool false), h').
Proof.
  eapply (C6_layer_unset deep_tree 2). vm_compute. reflexivity.
Defined.

(** ** C7: setting and reading back the encoding functions *)

(** C7: setting [encodingFunctions] to [[a, b]] and reading the property
    back yields [[a, b]] in that order; setting it then to the empty
    sequence yields the empty sequence.  In general the setter, given
    encoding functions [fs], first empties the list, whatever it held, then
    appends [fs] in order, so that [fs] is what the list holds afterwards. *)
Theorem C7_encodingFunctions_roundtrip (h : heap) (self : ref) (n : node) (a b : nat) :
  h !! self = Some n →
  (∃ h1 h2,
     set_encodingFunctions self (VList [VEncodingFunction a; VEncodingFunction b]) h
       = Some (Val tt, h1) ∧
     (l ← get_encodingFunctions self; iterate l) h1
       = Some (Val [VEncodingFunction a; VEncodingFunction b], h1) ∧
     set_encodingFunctions self (VList []) h1 = Some (Val tt, h2) ∧
     (l ← get_encodingFunctions self; iterate l) h2 = Some (Val [], h2)) ∧
  (∀ fs : list nat, ∃ h0 h',
     clearEncodingFunctions self h = Some (Val tt, h0) ∧
     contents (VTypedList self EncodingFunctions) h0 = Some [] ∧
     tl_extend self EncodingFunctions (VEncodingFunction <$> fs) h0 = Some (Val tt, h') ∧
     set_encodingFunctions self (VList (VEncodingFunction <$> fs)) h = Some (Val tt, h') ∧
     contents (VTypedList self EncodingFunctions) h' = Some (VEncodingFunction <$> fs)).
Proof.
  intros Hn.
  assert (∀ (h : heap) n (fs : list nat), h !! self = Some n →
            set_encodingFunctions self (VList (VEncodingFunction <$> fs)) h =
              Some (Val tt, <[self := slot_set EncodingFunctions (VEncodingFunction <$> fs) n]> h))
    as Hset.
  { intros h0 n0 fs Hn0.
    destruct (set_lists_unfold self (VList (VEncodingFunction <$> fs))) as (_ & -> & _).
    rewrite (set_list_spec _ _ _ _ _ Hn0). cbn [membersTypes].
    unfold verdict. rewrite (check_encoding fs).
    by rewrite accepted_all by apply check_encoding. }
  assert (∀ (h : heap) n, h !! self = Some n →
            (l ← get_encodingFunctions self; iterate l) h =
              Some (Val (__encodingFunctions n), h)) as Hread.
  { intros h0 n0 Hn0. unfold get_encodingFunctions, iterate. unfold_M.
    by rewrite !Hn0. }
  split.
  - eexists _, _. split; [apply (Hset _ _ [a; b] Hn)|].
    split; [by rewrite (Hread _ _ (lookup_insert_eq _ _ _))|].
    split; [apply (Hset _ _ [] (lookup_insert_eq _ _ _))|].
    by rewrite (Hread _ _ (lookup_insert_eq _ _ _)).
  - intros fs. eexists _, _.
    split; [apply (clear_spec _ _ _ _ Hn)|].
    split; [cbn; by rewrite lookup_insert_eq|].
    split.
    { rewrite (tl_extend_spec _ _ _ _ _ (lookup_insert_eq _ _ _)).
      cbn [membersTypes]. unfold verdict. rewrite (check_encoding fs).
      rewrite accepted_all by apply check_encoding.
      by rewrite slot_get_set, slot_set_set, insert_insert_eq. }
    split; [apply (Hset _ _ fs Hn)|].
    cbn. by rewrite lookup_insert_eq.
Qed.

Lemma C7_encodingFunctions_roundtrip_witness :
  ∃ h1 h2,
    set_encodingFunctions 6 (VList [VEncodingFunction 7; VEncodingFunction 3]) deep_tree
      = Some (Val tt, h1) ∧
    (l ← get_encodingFunctions 6; iterate l) h1
      = Some (Val [VEncodingFunction 7; VEncodingFunction 3], h1) ∧
    set_encodingFunctions 6 (VList []) h1 = Some (Val tt, h2) ∧
    (l ← get_encodingFunctions 6; iterate l) h2 = Some (Val [], h2).
Proof.
  refine (proj1 (C7_encodingFunctions_roundtrip deep_tree 6 _ 7 3 _)).
  vm_compute. reflexivity.
Defined.

(** ** C8: the parent setter touches nothing else *)

(** C8: for every node [self] and every value [q] that is a field node or
    [None], setting the parent returns normally and changes the parent
    reference of [self] only: the other attributes of [self] are as before,
    every other node is as before, and no children sequence changed; in
    particular the previous parent still lists [self] among its children. *)
Theorem C8_parent_set_frame (h : heap) (self : ref) (n : node) (q : pyval) :
  h !! self = Some n →
  q = VNone ∨ (∃ r, q = VObj r) →
  ∃ h' n',
    set_parent self q h = Some (Val tt, h') ∧
    h' !! self = Some n' ∧
    __parent n' = q ∧
    with_parent (__parent n) n' = n ∧
    (∀ x, x ≠ self → h' !! x = h !! x) ∧
    (∀ x, children_of h' x = children_of h x) ∧
    (∀ p cs, parent_of h self = Some (VObj p) →
             children_of h p = Some cs → VObj self ∈ cs →
             ∃ cs', children_of h' p = Some cs' ∧ VObj self ∈ cs').
Proof.
  intros Hn Hq.
  assert (is_None q || isinstance q SELF = true) as Hcheck
    by (destruct Hq as [->|[r ->]]; done).
  assert (∀ x, children_of (<[self := with_parent q n]> h) x = children_of h x)
    as Hchildren.
  { intros x. unfold children_of. destruct (decide (x = self)) as [->|Hne].
    - by rewrite lookup_insert_eq, Hn.
    - by rewrite lookup_insert_ne. }
  exists (<[self := with_parent q n]> h), (with_parent q n).
  split; [by rewrite (set_parent_spec _ _ _ _ Hn), Hcheck|].
  split; [apply lookup_insert_eq|].
  split; [done|].
  split; [by destruct n|].
  split; [intros x Hne; by rewrite lookup_insert_ne|].
  split; [done|].
  intros p cs _ Hcs Hin. exists cs. by rewrite Hchildren.
Qed.

Lemma C8_parent_set_frame_witness :
  ∃ h' n',
    set_parent 3 (VObj 1) deep_tree = Some (Val tt, h') ∧
    h' !! 3 = Some n' ∧
    __parent n' = VObj 1 ∧
    (∀ x, x ≠ 3 → h' !! x = deep_tree !! x) ∧
    (∀ x, children_of h' x = children_of deep_tree x) ∧
    children_of h' 2 = Some [VObj 3].
Proof.
  destruct (C8_parent_set_frame deep_tree 3 _ (VObj 1) eq_refl
              (or_intror (ex_intro _ 1 eq_refl)))
    as (h' & n' & Hset & Hn' & Hp & _ & Hothers & Hchildren & _).
  exists h', n'. repeat (split; [assumption|]).
  rewrite Hchildren. vm_compute. reflexivity.
Defined.

(** ** C9: the memento pair of the base class *)

(** C9: [restoreFromMemento], for every node and every snapshot value, and
    [storeInMemento] return [None] and leave the store as it was, hence
    every attribute of every node. *)
Theorem C9_memento_noop (h : heap) (self : ref) (memento : pyval) :
  restoreFromMemento self memento h = Some (Val VNone, h) ∧
  storeInMemento self h = Some (Val VNone, h).
Proof. done. Qed.

(** ** C10: the pipelines are independent *)

Lemma touches_only_pipeline p self h h' :
  touches self (pipeline_slot p) h h' → only_pipeline_changed p self h h'.
Proof.
  intros Ht x. specialize (Ht x). destruct (h !! x) as [n|]; [|done].
  destruct Ht as (n' & Hn' & Hsame & Hne). exists n'.
  apply same_but_fields in Hsame
    as (Hc & Hi & Hna & Hr & Hl & Hd & Hp & Hv & Hslots).
  repeat (split; [assumption|]).
  split; [by apply (Hslots Children); destruct p|].
  repeat (split; [assumption|]).
  intros p' Hp'. apply Hslots. by destruct p, p'.
Qed.

(** C10: clearing a pipeline of a node, or setting it, returns (normally
    for the clearing, normally or with an exception for the setting) and
    modifies only that sequence: the other two pipelines, the children, the
    parent reference and the scalar attributes of the node are as before,
    and so is every other node. *)
Theorem C10_pipelines_independent (p : pipeline) (h : heap) (self : ref) (n : node) :
  h !! self = Some n →
  (∃ h', clear_pipeline p self h = Some (Val tt, h') ∧
         only_pipeline_changed p self h h') ∧
  (∀ vs, ∃ r h', set_pipeline p self (VList vs) h = Some (r, h') ∧
                 only_pipeline_changed p self h h') ∧
  (∀ v r h', set_pipeline p self v h = Some (r, h') →
             only_pipeline_changed p self h h').
Proof.
  intros Hn.
  assert (clear_pipeline p self = clear self (pipeline_slot p)) as Hclear
    by (by destruct p).
  assert (∀ v, set_pipeline p self v = set_list self (pipeline_slot p) v) as Hset
    by (by destruct p).
  split; [|split].
  - eexists. split; [rewrite Hclear; apply (clear_spec _ _ _ _ Hn)|].
    apply touches_only_pipeline. by apply touches_store.
  - intros vs. eexists _, _.
    split; [rewrite Hset; apply (set_list_spec _ _ _ _ _ Hn)|].
    apply touches_only_pipeline. by apply touches_store.
  - intros v r h' Hrun. apply touches_only_pipeline.
    rewrite Hset in Hrun. by eapply set_list_touches.
Qed.

Lemma C10_pipelines_independent_witness :
  (∃ h', clear_pipeline encoding 6 deep_tree = Some (Val tt, h') ∧
         only_pipeline_changed encoding 6 deep_tree h') ∧
  (∃ r h', set_pipeline visualization 6
             (VList [VVisualizationFunction 0; VEncodingFunction 1]) deep_tree
             = Some (r, h') ∧
           only_pipeline_changed visualization 6 deep_tree h').
Proof.
  split.
  - refine (proj1 (C10_pipelines_independent encoding deep_tree 6 _ _)).
    vm_compute. reflexivity.
  - refine (proj1 (proj2 (C10_pipelines_independent visualization deep_tree 6 _ _)) _).
    vm_compute. reflexivity.
Defined.

(** * Further properties of the class *)

Lemma getter_read s self (h : heap) n :
  h !! self = Some n →
  (l ← getter s self; iterate l) h = Some (Val (slot_get s n), h).
Proof.
  intros Hn. destruct s; cbn [getter];
    unfold get_children, get_encodingFunctions, get_visualizationFunctions,
      get_transformationFunctions, iterate; unfold_M; by rewrite !Hn.
Qed.

Lemma setter_set_list s self v : setter s self v = set_list self s v.
Proof. by destruct s. Qed.

Lemma clearer_clear s self : clearer s self = clear self s.
Proof. by destruct s. Qed.

(** ** X1: what the constructor establishes *)

(** X1: constructing a node under a fresh identity returns normally and
    leaves the other objects alone.  The new node reads back the drawn
    UUID as [id], the [name], [regex] and [layer] it was given, unchecked,
    the empty string as [description] and four empty lists; it has no
    parent, and [getSymbol] on it returns the node itself when it is a
    symbol and raises [NoSymbolException] otherwise. *)
Theorem X1_init_fresh (h : heap) (self : ref) (cls : variant) (u : N)
    (name regex layer : pyval) :
  h !! self = None →
  ∃ h', __init__ self cls u name regex layer h = Some (Val tt, h') ∧
        (∀ x, x ≠ self → h' !! x = h !! x) ∧
        get_id self h' = Some (Val (VUUID u), h') ∧
        get_name self h' = Some (Val name, h') ∧
        get_regex self h' = Some (Val regex, h') ∧
        get_layer self h' = Some (Val layer, h') ∧
        get_description self h' = Some (Val (VStr ""), h') ∧
        (∀ s, (l ← getter s self; iterate l) h' = Some (Val [], h')) ∧
        hasParent self h' = Some (Val false, h') ∧
        (∀ fuel, getSymbol (S fuel) self h' =
                   Some (if bool_decide (cls = Symbol) then Val (VObj self)
                         else Exc NoSymbolException, h')).
Proof.
  intros Hfresh. eexists. split; [unfold __init__; by rewrite Hfresh|].
  split; [intros x Hne; by rewrite lookup_insert_ne|].
  repeat (split; [unfold get_id, get_name, get_regex, get_layer, get_description,
                    load; by rewrite lookup_insert_eq|]).
  split; [intros s; rewrite (getter_read _ _ _ _ (lookup_insert_eq _ _ _));
          by destruct s|].
  split; [unfold hasParent; unfold_M; by rewrite lookup_insert_eq|].
  intros fuel. rewrite (getSymbol_step _ _ _ _ (lookup_insert_eq _ _ _)).
  rewrite (is_Symbol_class _ _ _ (lookup_insert_eq _ _ _)). cbn.
  by destruct (bool_decide (cls = Symbol)).
Qed.

Lemma X1_init_fresh_witness :
  ∃ h', __init__ 7 Field 900 (VInt 5) (VStr "x") VNone deep_tree = Some (Val tt, h') ∧
        get_name 7 h' = Some (Val (VInt 5), h') ∧
        hasParent 7 h' = Some (Val false, h') ∧
        getSymbol 1 7 h' = Some (Exc NoSymbolException, h').
Proof.
  destruct (X1_init_fresh deep_tree 7 Field 900 (VInt 5) (VStr "x") VNone eq_refl)
    as (h' & Hinit & _ & _ & Hname & _ & _ & _ & _ & Hpar & Hsym).
  exists h'. split; [exact Hinit|]. split; [exact Hname|].
  split; [exact Hpar | exact (Hsym 0)].
Defined.

(** ** X2: the parent property and [hasParent] *)

(** X2: after the parent of a node is set to a field node, the getter
    returns that node and [hasParent] answers true; after it is set to
    [None], the getter returns [None] and [hasParent] answers false. *)
Theorem X2_parent_roundtrip (h : heap) (self : ref) (n : node) :
  h !! self = Some n →
  (∀ q, ∃ h', set_parent self (VObj q) h = Some (Val tt, h') ∧
              get_parent self h' = Some (Val (VObj q), h') ∧
              hasParent self h' = Some (Val true, h')) ∧
  (∃ h', set_parent self VNone h = Some (Val tt, h') ∧
         get_parent self h' = Some (Val VNone, h') ∧
         hasParent self h' = Some (Val false, h')).
Proof.
  intros Hn. split; [intros q|]; eexists;
    (split; [by rewrite (set_parent_spec _ _ _ _ Hn)|]);
    unfold hasParent, get_parent; unfold_M; by rewrite lookup_insert_eq.
Qed.

Lemma X2_parent_roundtrip_witness :
  (∃ h', set_parent 1 (VObj 4) deep_tree = Some (Val tt, h') ∧
         get_parent 1 h' = Some (Val (VObj 4), h') ∧
         hasParent 1 h' = Some (Val true, h')) ∧
  (∃ h', set_parent 6 VNone deep_tree = Some (Val tt, h') ∧
         get_parent 6 h' = Some (Val VNone, h') ∧
         hasParent 6 h' = Some (Val false, h')).
Proof.
  split.
  - exact (proj1 (X2_parent_roundtrip deep_tree 1 _ eq_refl) 4).
  - exact (proj2 (X2_parent_roundtrip deep_tree 6 _ eq_refl)).
Defined.

(** ** X3: the four clearing methods *)

(** X3: each clearing method returns normally whatever the length of the
    list, after which the property reads back empty; clearing again changes
    nothing; the other objects, the other three lists of the node and every
    parent reference (those of removed children included) are as before. *)
Theorem X3_clear_empties (s : slot) (h : heap) (self : ref) (n : node) :
  h !! self = Some n →
  ∃ h', clearer s self h = Some (Val tt, h') ∧
        (l ← getter s self; iterate l) h' = Some (Val [], h') ∧
        clearer s self h' = Some (Val tt, h') ∧
        (∀ x, x ≠ self → h' !! x = h !! x) ∧
        (∀ x, parent_of h' x = parent_of h x) ∧
        (∀ s', s' ≠ s →
               contents (VTypedList self s') h' = contents (VTypedList self s') h).
Proof.
  intros Hn. exists (<[self := slot_set s [] n]> h).
  rewrite clearer_clear.
  split; [apply (clear_spec _ _ _ _ Hn)|].
  split; [rewrite (getter_read _ _ _ _ (lookup_insert_eq _ _ _));
          by rewrite slot_get_set|].
  split; [rewrite (clear_spec _ _ _ _ (lookup_insert_eq _ _ _));
          by rewrite slot_set_set, insert_insert_eq|].
  split; [intros x Hne; by rewrite lookup_insert_ne|].
  split.
  - intros x. eapply touches_parent_of. by apply touches_store.
  - intros s' Hne. cbn. rewrite lookup_insert_eq, Hn. cbn.
    by rewrite slot_get_set_ne.
Qed.

Lemma X3_clear_empties_witness :
  ∃ h', clearer Children 2 two_fields = Some (Val tt, h') ∧
        (l ← getter Children 2; iterate l) h' = Some (Val [], h') ∧
        clearer Children 2 h' = Some (Val tt, h').
Proof.
  destruct (X3_clear_empties Children two_fields 2 _ eq_refl)
    as (h' & Hclear & Hread & Hagain & _).
  by exists h'.
Defined.

(** ** X4: the checked scalar properties *)

(** X4: for [name], [regex], [layer] and [description], setting an instance
    of the class named by the decorator returns normally, the getter then
    returns that value, and nothing else changed; setting [None] returns
    normally and reads back [None], or [False] for [layer]; and whatever
    the value, the setter either returns normally or raises [TypeError]
    with the store as it was. *)
Theorem X4_scalar_setters (a : scalar) (h : heap) (self : ref) (n : node) (v : pyval) :
  h !! self = Some n →
  (isinstance v (scalar_type a) = true →
   ∃ h', scalar_set a self v h = Some (Val tt, h') ∧
         scalar_get a self h' = Some (Val v, h') ∧
         only_scalar_changed a self h h') ∧
  (∃ h', scalar_set a self VNone h = Some (Val tt, h') ∧
         scalar_get a self h' =
           Some (Val (match a with attr_layer => VBool false | _ => VNone end), h') ∧
         only_scalar_changed a self h h') ∧
  (∀ r h', scalar_set a self v h = Some (r, h') →
           r = Val tt ∨ (r = Exc TypeError ∧ h' = h)).
Proof.
  intros Hn.
  assert (∀ w, only_scalar_changed a self h (<[self := scalar_with a w n]> h))
    as Hframe.
  { intros w x. destruct (decide (x = self)) as [->|Hne].
    - rewrite Hn, lookup_insert_eq. eexists. split; [done|].
      split; [done|]. by destruct a, n.
    - rewrite lookup_insert_ne by done. destruct (h !! x) as [nx|]; [|done].
      exists nx. split; [done|]. split; [done|]. by destruct a, nx. }
  split; [|split].
  - intros Hv. exists (<[self := scalar_with a v n]> h). split; [|split].
    + destruct a; cbn [scalar_set scalar_type] in *;
        unfold set_name, set_regex, set_layer, set_description, typeCheck;
        unfold_M; rewrite Hv, orb_true_r; cbn; rewrite Hn; try done.
      by destruct v.
    + destruct a; cbn; unfold get_name, get_regex, get_layer, get_description, load;
        by rewrite lookup_insert_eq.
    + apply Hframe.
  - exists (<[self := scalar_with a
                        (match a with attr_layer => VBool false | _ => VNone end) n]> h).
    split; [|split].
    + destruct a; cbn [scalar_set];
        unfold set_name, set_regex, set_layer, set_description, typeCheck;
        unfold_M; cbn; by rewrite Hn.
    + destruct a; cbn; unfold get_name, get_regex, get_layer, get_description, load;
        by rewrite lookup_insert_eq.
    + apply Hframe.
  - intros r h'. destruct a; cbn [scalar_set scalar_type];
      unfold set_name, set_regex, set_layer, set_description, typeCheck;
      unfold_M;
      (match goal with |- context [is_None v || isinstance v ?t] =>
         destruct (is_None v || isinstance v t) end);
      cbn; rewrite ?Hn; intros [= <- <-]; auto.
Qed.

Lemma X4_scalar_setters_witness :
  (∃ h', scalar_set attr_description 3 (VStr "payload") deep_tree = Some (Val tt, h') ∧
         scalar_get attr_description 3 h' = Some (Val (VStr "payload"), h') ∧
         only_scalar_changed attr_description 3 deep_tree h') ∧
  (scalar_set attr_name 3 (VInt 5) deep_tree = Some (Val tt, deep_tree) ∨
   scalar_set attr_name 3 (VInt 5) deep_tree = Some (Exc TypeError, deep_tree)).
Proof.
  split.
  - exact (proj1 (X4_scalar_setters attr_description deep_tree 3 _ (VStr "payload") eq_refl)
             eq_refl).
  - right. reflexivity.
Defined.

(** ** X5 to X8: the list setters and the lists they expose *)

Lemma getter_handle s self (h : heap) n :
  h !! self = Some n → getter s self h = Some (Val (VTypedList self s), h).
Proof.
  intros Hn. destruct s; cbn [getter];
    unfold get_children, get_encodingFunctions, get_visualizationFunctions,
      get_transformationFunctions, load; by rewrite Hn.
Qed.

Lemma bind_getter {A} s self (k : pyval → M A) (h : heap) n :
  h !! self = Some n →
  (l ← getter s self; k l) h = k (VTypedList self s) h.
Proof.
  intros Hn. unfold mbind, M_bind, bind. by rewrite (getter_handle _ _ _ _ Hn).
Qed.

(** A list setter given the list of another node. *)
Lemma set_list_other a b s (h : heap) na nb :
  a ≠ b → h !! a = Some na → h !! b = Some nb →
  set_list a s (VTypedList b s) h =
    Some (verdict (membersTypes s) (slot_get s nb),
          <[a := slot_set s (accepted (membersTypes s) (slot_get s nb)) na]> h).
Proof.
  intros Hne Ha Hb. unfold set_list. unfold_M.
  rewrite (clear_spec _ _ _ _ Ha). rewrite lookup_insert_eq.
  unfold extend, iterate. unfold_M.
  rewrite lookup_insert_ne, Hb by done.
  rewrite (tl_extend_spec _ _ _ _ (slot_set s [] na)) by apply lookup_insert_eq.
  by rewrite slot_get_set, slot_set_set, insert_insert_eq.
Qed.

Lemma accepted_split t vs :
  ∃ rest, vs = accepted t vs ++ rest ∧
          forallb (TL.check t) (accepted t vs) = true ∧
          ((forallb (TL.check t) vs = true ∧ rest = []) ∨
           (forallb (TL.check t) vs = false ∧
            ∃ w rest', rest = w :: rest' ∧ TL.check t w = false)).
Proof.
  induction vs as [|v vs (rest & Heq & Hok & Hcase)]; cbn.
  - exists []. auto.
  - destruct (TL.check t v) eqn:Hv; cbn.
    + exists rest. rewrite Hv. split; [by f_equal|]. split; [done|].
      destruct Hcase as [[-> ->]|[-> Hw]]; auto.
    + exists (v :: vs). split; [done|]. split; [done|]. right. eauto.
Qed.

(** X5: assigning to a list property the very list its getter returns
    empties it: the setter clears the list before it reads its argument,
    which is that same list. *)
Theorem X5_self_assignment (s : slot) (h : heap) (self : ref) (n : node) :
  h !! self = Some n →
  ∃ h', (l ← getter s self; setter s self l) h = Some (Val tt, h') ∧
        (l ← getter s self; iterate l) h' = Some (Val [], h').
Proof.
  intros Hn. eexists. split.
  - rewrite (bind_getter _ _ _ _ _ Hn), setter_set_list.
    apply (set_list_alias _ _ _ _ Hn).
  - rewrite (getter_read _ _ _ _ (lookup_insert_eq _ _ _)).
    by rewrite slot_get_set.
Qed.

Lemma X5_self_assignment_witness :
  (l ← getter EncodingFunctions 1; iterate l) two_fields
    = Some (Val [VEncodingFunction 0; VEncodingFunction 1; VEncodingFunction 2],
            two_fields) ∧
  ∃ h', (l ← getter EncodingFunctions 1; setter EncodingFunctions 1 l) two_fields
          = Some (Val tt, h') ∧
        (l ← getter EncodingFunctions 1; iterate l) h' = Some (Val [], h').
Proof.
  split; [reflexivity|].
  exact (X5_self_assignment EncodingFunctions two_fields 1 _ eq_refl).
Defined.

(** X6: assigning to a list property of node [a] the list of the same
    property of another node [b], when that list holds members of the right
    class, copies the members: both properties then read the same
    sequence, and the two lists stay distinct, since clearing the one of
    [b] afterwards leaves the one of [a] as it is. *)
Theorem X6_copy_between_nodes (s : slot) (h : heap) (a b : ref) (na nb : node) :
  a ≠ b → h !! a = Some na → h !! b = Some nb →
  forallb (TL.check (membersTypes s)) (slot_get s nb) = true →
  ∃ h', (l ← getter s b; setter s a l) h = Some (Val tt, h') ∧
        (l ← getter s a; iterate l) h' = Some (Val (slot_get s nb), h') ∧
        (l ← getter s b; iterate l) h' = Some (Val (slot_get s nb), h') ∧
        ∃ h'', clearer s b h' = Some (Val tt, h'') ∧
               (l ← getter s b; iterate l) h'' = Some (Val [], h'') ∧
               (l ← getter s a; iterate l) h'' = Some (Val (slot_get s nb), h'').
Proof.
  intros Hne Ha Hb Hok.
  exists (<[a := slot_set s (slot_get s nb) na]> h).
  assert ((<[a := slot_set s (slot_get s nb) na]> h) !! b = Some nb) as Hb'
    by (by rewrite lookup_insert_ne).
  split; [|split; [|split]].
  - rewrite (bind_getter _ _ _ _ _ Hb), setter_set_list.
    rewrite (set_list_other _ _ _ _ _ _ Hne Ha Hb).
    unfold verdict. by rewrite Hok, (accepted_all _ _ Hok).
  - rewrite (getter_read _ _ _ _ (lookup_insert_eq _ _ _)).
    by rewrite slot_get_set.
  - by rewrite (getter_read _ _ _ _ Hb').
  - eexists. split; [rewrite clearer_clear; apply (clear_spec _ _ _ _ Hb')|].
    split.
    + rewrite (getter_read _ _ _ _ (lookup_insert_eq _ _ _)).
      by rewrite slot_get_set.
    + erewrite getter_read; [|rewrite lookup_insert_ne by done; apply lookup_insert_eq].
      by rewrite slot_get_set.
Qed.

Lemma X6_copy_between_nodes_witness :
  ∃ h', (l ← getter EncodingFunctions 1; setter EncodingFunctions 2 l) two_fields
          = Some (Val tt, h') ∧
        (l ← getter EncodingFunctions 2; iterate l) h'
          = Some (Val [VEncodingFunction 0; VEncodingFunction 1; VEncodingFunction 2], h') ∧
        ∃ h'', clearer EncodingFunctions 1 h' = Some (Val tt, h'') ∧
               (l ← getter EncodingFunctions 2; iterate l) h''
                 = Some (Val [VEncodingFunction 0; VEncodingFunction 1; VEncodingFunction 2], h'').
Proof.
  destruct (X6_copy_between_nodes EncodingFunctions two_fields 2 1 _ _
              ltac:(discriminate) eq_refl eq_refl eq_refl)
    as (h' & Hset & Hread & _ & h'' & Hclear & _ & Hkept).
  exists h'. split; [exact Hset|]. split; [exact Hread|].
  exists h''. split; [exact Hclear | exact Hkept].
Defined.

(** X7: a list setter is not atomic.  Given a value that cannot be
    iterated it raises [TypeError] after the list has been emptied; given a
    plain list it ends with the longest prefix of members of the right
    class, returning normally when that is the whole list and raising
    [TypeError] at the first other element.  In either case the previous
    members are gone. *)
Theorem X7_setter_not_atomic (s : slot) (h : heap) (self : ref) (n : node) :
  h !! self = Some n →
  (∀ v, iterable v = false →
        ∃ h', setter s self v h = Some (Exc TypeError, h') ∧
              (l ← getter s self; iterate l) h' = Some (Val [], h')) ∧
  (∀ vs, ∃ r h' pre rest,
        setter s self (VList vs) h = Some (r, h') ∧
        (l ← getter s self; iterate l) h' = Some (Val pre, h') ∧
        vs = pre ++ rest ∧
        forallb (TL.check (membersTypes s)) pre = true ∧
        ((r = Val tt ∧ rest = []) ∨
         (r = Exc TypeError ∧
          ∃ w rest', rest = w :: rest' ∧ TL.check (membersTypes s) w = false))).
Proof.
  intros Hn. split.
  - intros v Hv. exists (<[self := slot_set s [] n]> h). split.
    + rewrite setter_set_list. unfold set_list. unfold_M.
      rewrite (clear_spec _ _ _ _ Hn), lookup_insert_eq.
      by destruct v.
    + rewrite (getter_read _ _ _ _ (lookup_insert_eq _ _ _)).
      by rewrite slot_get_set.
  - intros vs.
    destruct (accepted_split (membersTypes s) vs) as (rest & Heq & Hok & Hcase).
    exists (verdict (membersTypes s) vs),
           (<[self := slot_set s (accepted (membersTypes s) vs) n]> h),
           (accepted (membersTypes s) vs), rest.
    split; [rewrite setter_set_list; apply (set_list_spec _ _ _ _ _ Hn)|].
    split; [rewrite (getter_read _ _ _ _ (lookup_insert_eq _ _ _));
            by rewrite slot_get_set|].
    split; [done|]. split; [done|].
    unfold verdict. destruct Hcase as [[-> ->]|[-> Hw]]; auto.
Qed.

Lemma X7_setter_not_atomic_witness :
  (∃ h', setter Children 2 VNone two_fields = Some (Exc TypeError, h') ∧
         (l ← getter Children 2; iterate l) h' = Some (Val [], h')) ∧
  (∃ h', setter Children 2 (VList [VObj 1; VInt 0; VObj 3]) two_fields
           = Some (Exc TypeError, h') ∧
         (l ← getter Children 2; iterate l) h' = Some (Val [VObj 1], h')).
Proof.
  split.
  - exact (proj1 (X7_setter_not_atomic Children two_fields 2 _ eq_refl) VNone eq_refl).
  - destruct (proj2 (X7_setter_not_atomic Children two_fields 2 _ eq_refl)
                [VObj 1; VInt 0; VObj 3])
      as (r & h' & pre & rest & Hset & Hread & _).
    exists h'. vm_compute in Hset. injection Hset as <- <-.
    split; [reflexivity|]. vm_compute. reflexivity.
Defined.

(** X8: the list a getter returns is the list the node holds: extending it
    with members of the right class appends them, in order, to what the
    property held, which is what the property reads back afterwards. *)
Theorem X8_live_list (s : slot) (h : heap) (self : ref) (n : node) (vs : list pyval) :
  h !! self = Some n →
  forallb (TL.check (membersTypes s)) vs = true →
  ∃ h', (l ← getter s self; extend l (VList vs)) h = Some (Val tt, h') ∧
        (l ← getter s self; iterate l) h' = Some (Val (slot_get s n ++ vs), h') ∧
        (∀ x, x ≠ self → h' !! x = h !! x).
Proof.
  intros Hn Hok. exists (<[self := slot_set s (slot_get s n ++ vs) n]> h).
  split; [|split].
  - rewrite (bind_getter _ _ _ _ _ Hn). unfold extend, iterate. unfold_M.
    rewrite (tl_extend_spec _ _ _ _ _ Hn). unfold verdict.
    by rewrite Hok, (accepted_all _ _ Hok).
  - rewrite (getter_read _ _ _ _ (lookup_insert_eq _ _ _)).
    by rewrite slot_get_set.
  - intros x Hne. by rewrite lookup_insert_ne.
Qed.

Lemma X8_live_list_witness :
  ∃ h', (l ← getter Children 2; extend l (VList [VObj 2])) two_fields
          = Some (Val tt, h') ∧
        (l ← getter Children 2; iterate l) h'
          = Some (Val [VObj 3; VObj 1; VObj 2], h').
Proof.
  destruct (X8_live_list Children two_fields 2 _ [VObj 2] eq_refl eq_refl)
    as (h' & Hext & Hread & _).
  exists h'. split; [exact Hext | exact Hread].
Defined.

(** ** X9: the classes of the stored values *)

Global Instance keeps_ok_preorder : PreOrder keeps_ok.
Proof.
  split.
  - by intros h Hh.
  - intros h1 h2 h3 H12 H23 Hh. by apply H23, H12.
Qed.

Lemma node_ok_slot_set s t n :
  node_ok n → forallb (TL.check (membersTypes s)) t = true →
  node_ok (slot_set s t n).
Proof.
  intros (Hid & Hd & Hp & Hv & Hl) Ht.
  split; [by rewrite slot_set_id|].
  split; [by destruct s|].
  split; [by rewrite slot_set_parent|].
  split; [by destruct s|].
  intros s'. destruct (decide (s = s')) as [<-|Hne].
  - by rewrite slot_get_set.
  - by rewrite slot_get_set_ne.
Qed.

Lemma keeps_ok_store o f (h : heap) n :
  (node_ok n → node_ok (f n)) →
  h !! o = Some n → keeps_ok h (<[o := f n]> h).
Proof.
  intros Hf Hn Hh x nx Hx. destruct (decide (x = o)) as [->|Hne].
  - rewrite lookup_insert_eq in Hx. injection Hx as <-. apply Hf. by eapply Hh.
  - rewrite lookup_insert_ne in Hx by done. by eapply Hh.
Qed.

Lemma forallb_removelast {A} (f : A → bool) l :
  forallb f l = true → forallb f (removelast l) = true.
Proof.
  destruct l as [|x l _] using rev_ind; [done|].
  rewrite removelast_last, forallb_app. by intros [? _]%andb_true_iff.
Qed.

Lemma tl_append_keeps_ok o s v : sound keeps_ok (tl_append o s v).
Proof.
  intros h r h'. unfold tl_append, TL.append. unfold_M.
  destruct (h !! o) as [n|] eqn:Hn; [|done].
  destruct (TL.check (membersTypes s) v) eqn:Hv; cbn.
  - rewrite Hn. intros [= <- <-]. apply keeps_ok_store; [|done].
    intros Hok. apply node_ok_slot_set; [done|].
    rewrite forallb_app. cbn. rewrite Hv.
    destruct Hok as (_ & _ & _ & _ & Hl). by rewrite Hl.
  - intros [= <- <-]. reflexivity.
Qed.

Lemma tl_pop_keeps_ok o s : sound keeps_ok (tl_pop o s).
Proof.
  intros h r h'. unfold tl_pop, TL.pop. unfold_M.
  destruct (h !! o) as [n|] eqn:Hn; [|done].
  destruct (last (slot_get s n)); cbn.
  - rewrite Hn. intros [= <- <-]. apply keeps_ok_store; [|done].
    intros Hok. apply node_ok_slot_set; [done|].
    apply forallb_removelast. by destruct Hok as (_ & _ & _ & _ & Hl).
  - intros [= <- <-]. reflexivity.
Qed.

Lemma tl_extend_keeps_ok o s vs : sound keeps_ok (tl_extend o s vs).
Proof.
  induction vs as [|v vs IH]; cbn [tl_extend]; sound_auto; [|done].
  apply tl_append_keeps_ok.
Qed.

Lemma clear_keeps_ok o s : sound keeps_ok (clear o s).
Proof.
  unfold clear, tl_len. sound_auto.
  match goal with |- sound _ (clear_loop ?k _ _) => generalize k end.
  intros fuel. induction fuel as [|fuel IH]; cbn [clear_loop]; unfold tl_len;
    sound_auto; [|done]. apply tl_pop_keeps_ok.
Qed.

Lemma extend_keeps_ok l v : sound keeps_ok (extend l v).
Proof.
  unfold extend. destruct l; sound_auto;
    first [apply iterate_sound, _ | apply tl_extend_keeps_ok].
Qed.

Lemma set_list_keeps_ok self s v : sound keeps_ok (set_list self s v).
Proof.
  unfold set_list. sound_auto; [apply clear_keeps_ok | apply extend_keeps_ok].
Qed.

Lemma checked_store_keeps_ok t v self f :
  (typed t v = true → ∀ n, node_ok n → node_ok (f n)) →
  sound keeps_ok (typeCheck t v;; store self f).
Proof.
  intros Hf h r h'. unfold typeCheck, typed in *. unfold_M.
  destruct (is_None v || isinstance v t); cbn.
  - destruct (h !! self) as [n|] eqn:Hn; [|done].
    intros [= <- <-]. apply keeps_ok_store; auto.
  - intros [= <- <-]. reflexivity.
Qed.

Lemma set_id_keeps_ok self v : sound keeps_ok (set_id self v).
Proof.
  intros h r h'. unfold set_id, typeCheck. unfold_M.
  destruct v; cbn; try (intros [= <- <-]; reflexivity).
  destruct (h !! self) as [n|] eqn:Hn; [|done].
  intros [= <- <-]. apply keeps_ok_store; [|done].
  by intros (_ & ? & ? & ? & ?).
Qed.

Lemma init_keeps_ok self cls u name regex layer :
  sound keeps_ok (__init__ self cls u name regex layer).
Proof.
  intros h r h'. unfold __init__. destruct (h !! self) eqn:E; [done|].
  intros [= <- <-] Hh x nx Hx. destruct (decide (x = self)) as [->|Hne].
  - rewrite lookup_insert_eq in Hx. injection Hx as <-.
    repeat split. by intros [].
  - rewrite lookup_insert_ne in Hx by done. by eapply Hh.
Qed.

Lemma exec_keeps_ok c : sound keeps_ok (exec c).
Proof.
  destruct c; cbn [exec]; unfold void.
  - sound_auto. apply init_keeps_ok.
  - unfold getCells. sound_auto.
  - unfold getValues. sound_auto.
  - unfold generate. sound_auto.
  - apply getSymbol_sound, _.
  - unfold hasParent. sound_auto.
  - pose proof (clear_keeps_ok self s). destruct s; sound_auto; done.
  - unfold get_id. sound_auto.
  - sound_auto. apply set_id_keeps_ok.
  - unfold get_name. sound_auto.
  - sound_auto. apply checked_store_keeps_ok. by intros _ n (? & ? & ? & ? & ?).
  - unfold get_regex. sound_auto.
  - sound_auto. apply checked_store_keeps_ok. by intros _ n (? & ? & ? & ? & ?).
  - unfold get_layer. sound_auto.
  - sound_auto. apply checked_store_keeps_ok. by intros _ n (? & ? & ? & ? & ?).
  - unfold get_description. sound_auto.
  - sound_auto. apply checked_store_keeps_ok. by intros Hv n (? & ? & ? & ? & ?).
  - destruct s; cbn; apply sound_load, _.
  - pose proof (set_list_keeps_ok self s v). destruct s; sound_auto; done.
  - unfold get_parent. sound_auto.
  - sound_auto. apply checked_store_keeps_ok. by intros Hv n (? & ? & ? & ? & ?).
  - unfold storeInMemento. sound_auto.
  - unfold restoreFromMemento. sound_auto.
  - sound_auto. apply extend_keeps_ok.
  - apply tl_pop_keeps_ok.
Qed.

Lemma reachable_ok h : reachable h → heap_ok h.
Proof.
  induction 1 as [|h c r h' Hreach IH Hexec].
  - intros x n Hx. by rewrite lookup_empty in Hx.
  - by eapply exec_keeps_ok.
Qed.

Lemma typed_members (t : pytype) (l : list pyval) (C : Type) (mk : C → pyval) :
  (∀ v, TL.check t v = true → ∃ c, v = mk c) →
  forallb (TL.check t) l = true → Forall (λ v, ∃ c, v = mk c) l.
Proof.
  intros Hmk. induction l as [|v l IH]; cbn; [constructor|].
  intros [Hv Hl]%andb_true_iff. constructor; auto.
Qed.

(** X9: in every store a program can build, whatever the calls and their
    outcomes, the parent of a node is [None] or a field node, its
    description is [None] or a string, its variable is [None], its
    children are field nodes and each of its pipelines holds functions of
    its own kind. *)
Theorem X9_stored_classes (h : heap) (x : ref) (n : node) :
  reachable h → h !! x = Some n →
  (__parent n = VNone ∨ ∃ p, __parent n = VObj p) ∧
  (__description n = VNone ∨ ∃ d, __description n = VStr d) ∧
  _variable n = VNone ∧
  Forall (λ v, ∃ c, v = VObj c) (__children n) ∧
  Forall (λ v, ∃ f, v = VEncodingFunction f) (__encodingFunctions n) ∧
  Forall (λ v, ∃ f, v = VVisualizationFunction f) (__visualizationFunctions n) ∧
  Forall (λ v, ∃ f, v = VTransformationFunction f) (__transformationFunctions n).
Proof.
  intros Hreach Hx.
  destruct (reachable_ok _ Hreach _ _ Hx) as (_ & Hd & Hp & Hv & Hl).
  split; [destruct (__parent n); try done; eauto|].
  split; [destruct (__description n); try done; eauto|].
  split; [done|].
  split; [apply (typed_members TAbstractField _ ref VObj
                   ltac:(intros []; try done; eauto) (Hl Children))|].
  split; [apply (typed_members TEncodingFunction _ nat VEncodingFunction
                   ltac:(intros []; try done; eauto) (Hl EncodingFunctions))|].
  split; [apply (typed_members TVisualizationFunction _ nat VVisualizationFunction
                   ltac:(intros []; try done; eauto) (Hl VisualizationFunctions))|].
  apply (typed_members TTransformationFunction _ nat VTransformationFunction
           ltac:(intros []; try done; eauto) (Hl TransformationFunctions)).
Qed.

Lemma reachable_run_calls cs h h' :
  reachable h → run_calls cs h = Some h' → reachable h'.
Proof.
  revert h. induction cs as [|c cs IH]; intros h Hreach; cbn.
  - by intros [= <-].
  - destruct (exec c h) as [[r h1]|] eqn:Hexec; [|done].
    apply IH. by eapply reachable_call.
Qed.

Lemma reachable_two_fields : reachable two_fields.
Proof.
  apply (reachable_run_calls
           [Call_init 1 Field 601 (VStr "left") VNone (VBool false);
            Call_init 2 Field 602 (VStr "right") VNone (VBool false);
            Call_init 3 Field 603 VNone VNone (VBool false);
            Call_set_list 1 EncodingFunctions
              (VList [VEncodingFunction 0; VEncodingFunction 1; VEncodingFunction 2]);
            Call_set_list 2 EncodingFunctions (VList [VEncodingFunction 9]);
            Call_set_list 2 Children (VList [VObj 3; VObj 1])] ∅);
    [constructor | vm_compute; reflexivity].
Qed.

Lemma X9_stored_classes_witness :
  ∃ n, two_fields !! 2 = Some n ∧
       (__parent n = VNone ∨ ∃ p, __parent n = VObj p) ∧
       Forall (λ v, ∃ c, v = VObj c) (__children n).
Proof.
  eexists. split; [reflexivity|].
  destruct (X9_stored_classes two_fields 2 _ reachable_two_fields eq_refl)
    as (Hp & _ & _ & Hc & _).
  split; [exact Hp | exact Hc].
Defined.

(** ** X10 to X13: symbol resolution *)

Lemma getSymbol_missing fuel r (h : heap) :
  h !! r = None → getSymbol fuel r h = None.
Proof.
  intros Hr. destruct fuel; [done|]. cbn [getSymbol]. unfold_M. by rewrite Hr.
Qed.

Lemma getSymbol_readonly fuel r (h : heap) res h' :
  getSymbol fuel r h = Some (res, h') → h' = h.
Proof.
  intros H. symmetry. revert H. apply (getSymbol_sound eq).
Qed.

Lemma getSymbol_more_fuel fuel fuel' r (h : heap) x :
  getSymbol fuel r h = Some x → fuel ≤ fuel' → getSymbol fuel' r h = Some x.
Proof.
  revert fuel' r. induction fuel as [|fuel IH]; intros fuel' r Hget Hle; [done|].
  destruct fuel' as [|fuel']; [lia|].
  destruct (h !! r) as [n|] eqn:Hn; [|by rewrite getSymbol_missing in Hget].
  rewrite (getSymbol_step _ _ _ _ Hn) in Hget. rewrite (getSymbol_step _ _ _ _ Hn).
  destruct (is_Symbol h r); [done|].
  destruct (__parent n); try done. apply IH; [done | lia].
Qed.

Lemma is_Symbol_lookup (h : heap) r :
  is_Symbol h r = true → ∃ n, h !! r = Some n.
Proof.
  unfold is_Symbol. intros H%bool_decide_eq_true.
  destruct (h !! r) as [n|]; [by eauto | done].
Qed.

Lemma nearest_Symbol_on_chain (h : heap) r s :
  nearest_Symbol h r s → is_Symbol h s = true ∧ on_chain h s r.
Proof.
  induction 1 as [r Hr | r p s Hr Hp Hnear [IHs IHc]].
  - split; [done | constructor].
  - split; [done | by econstructor].
Qed.

Lemma nearest_Symbol_getSymbol (h : heap) r s :
  nearest_Symbol h r s →
  ∃ fuel, ∀ fuel', fuel ≤ fuel' → getSymbol fuel' r h = Some (Val (VObj s), h).
Proof.
  induction 1 as [r Hr | r p s Hr Hp Hnear [fuel IH]].
  - exists 1. intros fuel' Hle. destruct fuel' as [|fuel']; [lia|].
    destruct (is_Symbol_lookup _ _ Hr) as [n Hn].
    by rewrite (getSymbol_step _ _ _ _ Hn), Hr.
  - exists (S fuel). intros fuel' Hle. destruct fuel' as [|fuel']; [lia|].
    apply parent_of_Some in Hp as (n & Hn & Hp).
    rewrite (getSymbol_step _ _ _ _ Hn), Hr, Hp. apply IH. lia.
Qed.

(** What an outcome of [getSymbol] says about the store. *)
Lemma getSymbol_outcome fuel r (h : heap) res h' :
  getSymbol fuel r h = Some (res, h') →
  match res with
  | Val v => ∃ s, v = VObj s ∧ nearest_Symbol h r s
  | Exc e =>
      (e = NoSymbolException ∧
       ∃ l, chain h r l ∧ ∀ x, x ∈ l → is_Symbol h x = false) ∨
      (e = AttributeError ∧
       ∃ x n, on_chain h x r ∧ h !! x = Some n ∧ typed SELF (__parent n) = false)
  end.
Proof.
  revert r. induction fuel as [|fuel IH]; intros r Hget; [done|].
  destruct (h !! r) as [n|] eqn:Hn; [|by rewrite getSymbol_missing in Hget].
  rewrite (getSymbol_step _ _ _ _ Hn) in Hget.
  destruct (is_Symbol h r) eqn:Hr.
  { injection Hget as <- <-. exists r. split; [done | by constructor]. }
  assert (typed SELF (__parent n) = false → res = Exc AttributeError →
          match res with
          | Val v => ∃ s, v = VObj s ∧ nearest_Symbol h r s
          | Exc e =>
              (e = NoSymbolException ∧
               ∃ l, chain h r l ∧ ∀ x, x ∈ l → is_Symbol h x = false) ∨
              (e = AttributeError ∧
               ∃ x n, on_chain h x r ∧ h !! x = Some n ∧
                      typed SELF (__parent n) = false)
          end) as Hbad.
  { intros Hty ->. right. split; [done|]. exists r, n.
    split; [constructor|]. by split. }
  destruct (__parent n) as [| | | | | |p| | | | |] eqn:Hp;
    try (injection Hget as <- <-; by apply Hbad).
  - injection Hget as <- <-. left. split; [done|]. exists [r]. split.
    + constructor. apply parent_of_Some. eauto.
    + by intros x ->%list_elem_of_singleton.
  - assert (parent_of h r = Some (VObj p)) as Hpar by (apply parent_of_Some; eauto).
    specialize (IH _ Hget). destruct res as [v|e].
    + destruct IH as (s & -> & Hnear). exists s. split; [done|].
      by econstructor.
    + destruct IH as [(-> & l & Hl & Hnone)|(-> & x & nx & Ho & Hx & Hty)].
      * left. split; [done|]. exists (r :: l). split; [by econstructor|].
        intros x [->|Hx]%elem_of_cons; auto.
      * right. split; [done|]. exists x, nx. split; [by econstructor | done].
Qed.

(** X10: [getSymbol] returns the first symbol met from the node upwards
    whatever lies above that symbol, be it a cycle: if [s] is that symbol,
    some recursion depth suffices and every larger one gives the same
    answer, [s] being an instance of [Symbol] that is the node or one of
    its ancestors. *)
Theorem X10_getSymbol_nearest (h : heap) (r s : ref) :
  nearest_Symbol h r s →
  is_Symbol h s = true ∧ on_chain h s r ∧
  ∃ fuel, ∀ fuel', fuel ≤ fuel' → getSymbol fuel' r h = Some (Val (VObj s), h).
Proof.
  intros Hnear. destruct (nearest_Symbol_on_chain _ _ _ Hnear) as [Hs Hc].
  split; [done|]. split; [done|]. by apply nearest_Symbol_getSymbol.
Qed.

Lemma X10_getSymbol_nearest_witness :
  ¬ finite_chain symbol_on_cycle 1 ∧
  ∃ fuel, ∀ fuel', fuel ≤ fuel' →
          getSymbol fuel' 1 symbol_on_cycle = Some (Val (VObj 2), symbol_on_cycle).
Proof.
  split.
  - intros Hfin. eapply (finite_chain_irrefl _ 1 2 Hfin); [reflexivity|].
    eapply on_chain_up; [reflexivity | constructor].
  - refine (proj2 (proj2 (X10_getSymbol_nearest symbol_on_cycle 1 2 _))).
    eapply nearest_up; [reflexivity | reflexivity |].
    apply nearest_here. reflexivity.
Defined.

(** X11: whenever [getSymbol] ends, it has left the store as it was and a
    larger recursion depth gives the same outcome.  What it returns is the
    first symbol met from the node upwards.  It raises
    [NoSymbolException] only when the parent chain of the node is finite
    and holds no symbol, and in a store built by calls of the class it
    raises nothing else. *)
Theorem X11_getSymbol_outcome (fuel : nat) (r : ref) (h : heap)
    (res : result pyval) (h' : heap) :
  getSymbol fuel r h = Some (res, h') →
  h' = h ∧
  (∀ fuel', fuel ≤ fuel' → getSymbol fuel' r h = Some (res, h)) ∧
  (∀ v, res = Val v → ∃ s, v = VObj s ∧ nearest_Symbol h r s) ∧
  (res = Exc NoSymbolException →
   ∃ l, chain h r l ∧ ∀ x, x ∈ l → is_Symbol h x = false) ∧
  (∀ e, res = Exc e → reachable h → e = NoSymbolException).
Proof.
  intros Hget. pose proof (getSymbol_readonly _ _ _ _ _ Hget) as ->.
  pose proof (getSymbol_outcome _ _ _ _ _ Hget) as Hout.
  split; [done|]. split; [intros fuel' Hle; by eapply getSymbol_more_fuel|].
  split; [by intros v ->|]. split.
  - intros ->. by destruct Hout as [[_ ?]|[? _]].
  - intros e -> Hreach. destruct Hout as [[-> _]|(_ & x & n & _ & Hx & Hty)]; [done|].
    destruct (reachable_ok _ Hreach _ _ Hx) as (_ & _ & Hp & _). congruence.
Qed.

Lemma X11_getSymbol_outcome_witness :
  ∃ l, chain two_fields 2 l ∧ ∀ x, x ∈ l → is_Symbol two_fields x = false.
Proof.
  exact (proj1 (proj2 (proj2 (proj2
           (X11_getSymbol_outcome 1 2 two_fields (Exc NoSymbolException) two_fields
              eq_refl)))) eq_refl).
Defined.

Lemma getSymbol_off_chain (h : heap) f n q fuel r res :
  h !! f = Some n →
  getSymbol fuel r h = Some (res, h) →
  ¬ on_chain h f r →
  getSymbol fuel r (<[f := with_parent q n]> h)
    = Some (res, <[f := with_parent q n]> h).
Proof.
  intros Hf. revert r. induction fuel as [|fuel IH]; intros r Hget Hoff; [done|].
  assert (r ≠ f) as Hne by (intros ->; apply Hoff; constructor).
  destruct (h !! r) as [nr|] eqn:Hr; [|by rewrite getSymbol_missing in Hget].
  assert ((<[f := with_parent q n]> h) !! r = Some nr) as Hr'
    by (by rewrite lookup_insert_ne).
  rewrite (getSymbol_step _ _ _ _ Hr) in Hget.
  rewrite (getSymbol_step _ _ _ _ Hr').
  rewrite (is_Symbol_class _ _ _ Hr) in Hget. rewrite (is_Symbol_class _ _ _ Hr').
  destruct (bool_decide (__class__ nr = Symbol)); [by injection Hget as <-|].
  destruct (__parent nr) as [| | | | | |p| | | | |] eqn:Hp;
    try by injection Hget as <-.
  apply IH; [done|]. intros Ho. apply Hoff.
  eapply on_chain_up; [|done]. apply parent_of_Some. eauto.
Qed.

(** X12: attaching a node that is not a symbol under a node [p] that is
    neither this node nor one of its descendants makes it resolve as [p]
    does: whatever [getSymbol] gave on [p] before, a symbol or
    [NoSymbolException], it gives on the attached node afterwards. *)
Theorem X12_attach_resolves (h : heap) (f p : ref) (n : node) (fuel : nat)
    (res : result pyval) (h0 : heap) :
  h !! f = Some n → is_Symbol h f = false → ¬ on_chain h f p →
  getSymbol fuel p h = Some (res, h0) →
  ∃ h', set_parent f (VObj p) h = Some (Val tt, h') ∧
        getSymbol fuel p h' = Some (res, h') ∧
        getSymbol (S fuel) f h' = Some (res, h').
Proof.
  intros Hf Hsym Hoff Hget.
  pose proof (getSymbol_readonly _ _ _ _ _ Hget) as ->.
  exists (<[f := with_parent (VObj p) n]> h).
  split; [by rewrite (set_parent_spec _ _ _ _ Hf)|].
  pose proof (getSymbol_off_chain _ _ _ (VObj p) _ _ _ Hf Hget Hoff) as Hp.
  split; [done|].
  rewrite (getSymbol_step _ _ _ _ (lookup_insert_eq _ _ _)).
  rewrite (is_Symbol_class _ _ _ (lookup_insert_eq _ _ _)).
  rewrite (is_Symbol_class _ _ _ Hf) in Hsym. cbn. by rewrite Hsym.
Qed.

Lemma X12_attach_resolves_witness :
  ∃ h', set_parent 2 (VObj 1) three_nodes = Some (Val tt, h') ∧
        getSymbol 1 1 h' = Some (Val (VObj 1), h') ∧
        getSymbol 2 2 h' = Some (Val (VObj 1), h').
Proof.
  refine (X12_attach_resolves three_nodes 2 1 _ 1 (Val (VObj 1)) three_nodes
            eq_refl eq_refl _ eq_refl).
  intros Ho.
  assert (chain three_nodes 1 [1]) as Hc by (apply chain_root; reflexivity).
  pose proof (on_chain_elem _ _ _ _ Hc Ho) as Hin.
  apply list_elem_of_singleton in Hin. discriminate.
Defined.

Lemma getSymbol_touches o s (h h' : heap) :
  touches o s h h' →
  ∀ fuel x, fst <$> getSymbol fuel x h' = fst <$> getSymbol fuel x h.
Proof.
  intros Ht fuel. induction fuel as [|fuel IH]; intros x; [done|].
  pose proof (Ht x) as Hx. destruct (h !! x) as [n|] eqn:Hn.
  - destruct Hx as (n' & Hn' & Hsame & _).
    apply same_but_fields in Hsame as (Hc & _ & _ & _ & _ & _ & Hp & _).
    rewrite (getSymbol_step _ _ _ _ Hn), (getSymbol_step _ _ _ _ Hn').
    rewrite (is_Symbol_class _ _ _ Hn), (is_Symbol_class _ _ _ Hn'), Hc, Hp.
    destruct (bool_decide (__class__ n = Symbol)); [done|].
    destruct (__parent n); first [done | apply IH].
  - by rewrite !getSymbol_missing.
Qed.

(** X13: symbol resolution follows the parent references only.  Setting or
    clearing the children or a pipeline of any node, whatever the argument
    and the outcome, changes the result of [getSymbol] for no node; in
    particular listing a node among the children of another does not make
    it resolve through that other node. *)
Theorem X13_lists_do_not_resolve (s : slot) (h : heap) (self : ref) (v : pyval)
    (r : result unit) (h' : heap) :
  setter s self v h = Some (r, h') ∨ clearer s self h = Some (r, h') →
  ∀ fuel x, fst <$> getSymbol fuel x h' = fst <$> getSymbol fuel x h.
Proof.
  intros Hrun. apply (getSymbol_touches self s).
  destruct Hrun as [Hset|Hclear].
  - rewrite setter_set_list in Hset. by eapply set_list_touches.
  - rewrite clearer_clear in Hclear. by eapply clear_touches.
Qed.

Lemma X13_lists_do_not_resolve_witness :
  ∃ h', setter Children 1 (VList [VObj 2]) three_nodes = Some (Val tt, h') ∧
        children_of h' 1 = Some [VObj 2] ∧
        fst <$> getSymbol 5 2 h' = Some (Exc NoSymbolException).
Proof.
  eexists. split; [reflexivity|]. split; [reflexivity|].
  rewrite (X13_lists_do_not_resolve Children three_nodes 1 (VList [VObj 2])
             (Val tt) _ (or_introl eq_refl) 5 2).
  reflexivity.
Defined.

(** ** X14: only the parent setter can close a cycle *)

Lemma parent_of_None (h : heap) x : parent_of h x = None ↔ h !! x = None.
Proof. unfold parent_of. by destruct (h !! x). Qed.

Global Instance keeps_parents_preorder : PreOrder keeps_parents.
Proof.
  split.
  - intros h x. by left.
  - intros h1 h2 h3 H12 H23 x.
    destruct (H23 x) as [E23|[N2 E3]], (H12 x) as [E12|[N1 E2]].
    + left. congruence.
    + right. split; [done | congruence].
    + right. split; [|done]. apply parent_of_None. rewrite <- E12.
      by apply parent_of_None.
    + apply parent_of_None in N2. congruence.
Qed.

Lemma keeps_parents_store o f (h : heap) n :
  (∀ n, __parent (f n) = __parent n) →
  h !! o = Some n → keeps_parents h (<[o := f n]> h).
Proof.
  intros Hf Hn x. left. unfold parent_of.
  destruct (decide (x = o)) as [->|Hne].
  - by rewrite lookup_insert_eq, Hn; cbn; rewrite Hf.
  - by rewrite lookup_insert_ne.
Qed.

Lemma touches_keeps_parents o s h h' : touches o s h h' → keeps_parents h h'.
Proof. intros Ht x. left. by eapply touches_parent_of. Qed.

Lemma init_keeps_parents self cls u name regex layer :
  sound keeps_parents (__init__ self cls u name regex layer).
Proof.
  intros h r h'. unfold __init__. destruct (h !! self) eqn:E; [done|].
  intros [= <- <-] x. unfold parent_of. destruct (decide (x = self)) as [->|Hne].
  - right. by rewrite lookup_insert_eq.
  - left. by rewrite lookup_insert_ne.
Qed.

Lemma set_id_keeps_parents self v : sound keeps_parents (set_id self v).
Proof.
  intros h r h'. unfold set_id, typeCheck. unfold_M.
  destruct v; cbn; try (intros [= <- <-]; reflexivity).
  destruct (h !! self) as [n|] eqn:E; [|done].
  intros [= <- <-]. by apply keeps_parents_store.
Qed.

Ltac keeps_parents_store :=
  apply sound_store; intros; by apply keeps_parents_store.

Lemma exec_keeps_parents c :
  (∀ self v, c ≠ Call_set_parent self v) → sound keeps_parents (exec c).
Proof.
  intros Hc. destruct c; cbn [exec]; unfold void.
  - sound_auto. apply init_keeps_parents.
  - unfold getCells. sound_auto.
  - unfold getValues. sound_auto.
  - unfold generate. sound_auto.
  - apply getSymbol_sound, _.
  - unfold hasParent. sound_auto.
  - assert (sound keeps_parents (clear self s)).
    { eapply sound_weaken; [apply touches_keeps_parents | apply clear_touches]. }
    destruct s; sound_auto; done.
  - unfold get_id. sound_auto.
  - sound_auto. apply set_id_keeps_parents.
  - unfold get_name. sound_auto.
  - unfold set_name, typeCheck. sound_auto. keeps_parents_store.
  - unfold get_regex. sound_auto.
  - unfold set_regex, typeCheck. sound_auto. keeps_parents_store.
  - unfold get_layer. sound_auto.
  - unfold set_layer, typeCheck. sound_auto. keeps_parents_store.
  - unfold get_description. sound_auto.
  - unfold set_description, typeCheck. sound_auto. keeps_parents_store.
  - destruct s; cbn; apply sound_load, _.
  - assert (sound keeps_parents (set_list self s v)).
    { eapply sound_weaken; [apply touches_keeps_parents | apply set_list_touches]. }
    destruct s; sound_auto; done.
  - unfold get_parent. sound_auto.
  - by destruct (Hc self v).
  - unfold storeInMemento. sound_auto.
  - unfold restoreFromMemento. sound_auto.
  - sound_auto.
    destruct l;
      first [ by eapply sound_weaken; [apply touches_keeps_parents | apply extend_touches]
            | unfold extend; sound_auto ].
  - eapply sound_weaken; [apply touches_keeps_parents | apply tl_pop_touches].
Qed.

Lemma chain_elem_is_Some (h : heap) r l x :
  chain h r l → x ∈ l → is_Some (h !! x).
Proof.
  intros Hc Hx. destruct (chain_suffix _ _ _ _ Hc Hx) as (la & Hla & _).
  destruct Hla as [x Hp | x p la Hp _];
    apply parent_of_Some in Hp as (n & Hn & _); eauto.
Qed.

Lemma keeps_parents_acyclic h h' : keeps_parents h h' → acyclic h → acyclic h'.
Proof.
  intros Hk Hac r Hr. destruct (Hk r) as [Heq|[_ Hroot]].
  - assert (is_Some (h !! r)) as Hr0.
    { destruct (h !! r) eqn:E; [by eauto|]. apply parent_of_None in E.
      rewrite E in Heq. apply parent_of_None in Heq. rewrite Heq in Hr.
      by destruct Hr. }
    destruct (Hac r Hr0) as [l Hl]. exists l.
    eapply chain_transfer; [done|]. intros x Hx.
    destruct (Hk x) as [E|[N _]]; [done|].
    destruct (chain_elem_is_Some _ _ _ _ Hl Hx) as [n Hn]. congruence.
  - exists [r]. by constructor.
Qed.

(** X14: the parent setter is the only call that can close a cycle.  From a
    store whose parent chains are all finite, any other call of the class,
    any direct edit of a list a getter returned and the constructor
    included, whatever its arguments and its outcome, leads to a store
    whose parent chains are all finite. *)
Theorem X14_only_parent_setter_breaks_acyclicity (c : call) (h : heap)
    (r : result pyval) (h' : heap) :
  (∀ self v, c ≠ Call_set_parent self v) →
  acyclic h → exec c h = Some (r, h') → acyclic h'.
Proof.
  intros Hc Hac Hexec. eapply keeps_parents_acyclic; [|done].
  by eapply exec_keeps_parents.
Qed.

Lemma X14_only_parent_setter_breaks_acyclicity_witness :
  acyclic (run (exec (Call_set_list 6 Children (VList [VObj 1; VObj 6]))) deep_tree).
Proof.
  apply (X14_only_parent_setter_breaks_acyclicity
           (Call_set_list 6 Children (VList [VObj 1; VObj 6])) deep_tree (Val VNone)).
  - discriminate.
  - apply acyclicb_sound. vm_compute. reflexivity.
  - vm_compute. reflexivity.
Defined.
